(** * Group-membership reconciliation of the gsuite provider

    A shallow embedding of [gsuite/resource_group_members.go] and the
    properties of its reconciliation algorithm.

    The remote directory service is an interface ([Directory]) over an
    abstract world; every call made through it is recorded in a call log, so
    that statements can talk about which calls were issued and in which
    order.  Go's [range] over a map visits the keys in an order the language
    leaves open: the order is drawn from an oracle ([range_order]) of which
    only one thing is known, that it enumerates the keys without repetition. *)

From stdpp Require Import gmap strings list fin_maps.

Open Scope string_scope.
Open Scope list_scope.

Set Warnings "-clear-no-such-hyp".

(** ** Data *)

(** Go's [error]: a value is identified with its message ([err.Error()]);
    the nil error is [None]. *)
Definition error := string.

(** [directory.Member], restricted to the two fields the program touches. *)
Record Member := mkMember { Role : string; Email : string }.

(** [schema.ResourceData]: the persistent identifier ([d.Id()]), the
    ["group"] attribute and the set-valued attributes (["owners"],
    ["managers"], ["members"]). *)
Record ResourceData := mkResourceData {
  Id : string;
  group : string;
  sets : gmap string (gset string)
}.

Definition SetId (d : ResourceData) (v : string) : ResourceData :=
  {| Id := v; group := group d; sets := sets d |}.

Definition SetGroup (d : ResourceData) (v : string) : ResourceData :=
  {| Id := Id d; group := v; sets := sets d |}.

(** [d.Get(key)] for a set attribute: an attribute never written reads as
    the empty set. *)
Definition GetSet (d : ResourceData) (key : string) : gset string :=
  default ∅ (sets d !! key).

(** [d.Set(key, vals)] with a slice of strings for a set attribute. *)
Definition SetSet (d : ResourceData) (key : string) (vals : list string)
  : ResourceData :=
  {| Id := Id d; group := group d; sets := <[key := list_to_set vals]> (sets d) |}.

Definition rolesMap : gmap string string :=
  <["MANAGER" := "managers"]>
    (<["MEMBER" := "members"]> (<["OWNER" := "owners"]> ∅)).

(** [rolesMap[role]]: indexing a Go map with an absent key yields the zero
    value. *)
Definition rolesMap_at (role : string) : string :=
  default "" (rolesMap !! role).

(** ** The directory service and the call log *)

(** The three remote operations the program uses, as transitions of an
    abstract world [W]:
    [config.directory.Members.List(gid).Roles(role).Do()],
    [config.directory.Members.Insert(gid, member).Do()] and
    [config.directory.Members.Delete(gid, m).Do()]. *)
Class Directory (W : Type) := {
  Members_List : string → string → W → (error + list Member) * W;
  Members_Insert : string → Member → W → (error + Member) * W;
  Members_Delete : string → string → W → option error * W
}.

(** One entry of the call log: the arguments of the remote call and the
    error it came back with ([None] when it succeeded). *)
Inductive Call :=
| CallList (gid role : string) (err : option error)
| CallInsert (gid : string) (mem : Member) (err : option error)
| CallDelete (gid email : string) (err : option error).

Definition call_err (c : Call) : option error :=
  match c with
  | CallList _ _ e | CallInsert _ _ e | CallDelete _ _ e => e
  end.

Definition call_ok (c : Call) : Prop := call_err c = None.

Definition is_insert (c : Call) : bool :=
  match c with CallInsert _ _ _ => true | _ => false end.

Definition is_delete (c : Call) : bool :=
  match c with CallDelete _ _ _ => true | _ => false end.

Definition is_list (c : Call) : bool :=
  match c with CallList _ _ _ => true | _ => false end.

(** The member ids that were the subject of a remove call, resp. of an add
    call, in log order. *)
Definition removed (cs : list Call) : list string :=
  omap (λ c, match c with CallDelete _ e _ => Some e | _ => None end) cs.

Definition added (cs : list Call) : list string :=
  omap (λ c, match c with CallInsert _ mem _ => Some (Email mem) | _ => None end) cs.

(** The role a call names, if it names one (a remove call does not). *)
Definition call_role (c : Call) : option string :=
  match c with
  | CallList _ r _ => Some r
  | CallInsert _ mem _ => Some (Role mem)
  | CallDelete _ _ _ => None
  end.

(** What the Go runtime and the schema library leave open.  [range_order n ks]
    is the order in which the [n]-th [range] statement executed visits the
    keys [ks] of a map; [Set_List s] is the slice the [List] method of
    [schema.Set] returns.  Both enumerate the keys without repetition, and
    nothing more is assumed of them. *)
Class Runtime := {
  range_order : nat → gset string → list string;
  range_order_perm : ∀ n ks, range_order n ks ≡ₚ elements ks;
  Set_List : gset string → list string;
  Set_List_perm : ∀ s, Set_List s ≡ₚ elements s
}.

(** The log entries of a remove call and of an add call that succeeded. *)
Definition del_ok (gid k : string) : Call := CallDelete gid k None.

Definition ins_ok (gid role k : string) : Call :=
  CallInsert gid {| Role := role; Email := k |} None.

(** What one run of the reconciler can come to, as the error returned and
    the calls issued, given the order [rems] in which the members to remove
    and the order [adds] in which the members to add are visited: all calls
    made and successful; or a removal failed, and it is the last call; or
    all removals were made, and an addition failed, and it is the last call. *)
Inductive Outcome (gid role : string) (rems adds : list string)
  : option error → list Call → Prop :=
| AllDone :
    Outcome gid role rems adds None
      ((del_ok gid <$> rems) ++ (ins_ok gid role <$> adds))
| RemoveFailed ks1 k ks2 e0 :
    rems = ks1 ++ k :: ks2 →
    Outcome gid role rems adds (Some ("Error deleting group: " +:+ e0))
      ((del_ok gid <$> ks1) ++ [CallDelete gid k (Some e0)])
| AddFailed ks1 k ks2 e0 :
    adds = ks1 ++ k :: ks2 →
    Outcome gid role rems adds (Some ("Error creating groupMember: " +:+ e0))
      ((del_ok gid <$> rems) ++ (ins_ok gid role <$> ks1) ++
         [CallInsert gid {| Role := role; Email := k |} (Some e0)]).

(** A call names no role outside [rs]. *)
Definition names_only (rs : list string) (c : Call) : Prop :=
  ∀ r, call_role c = Some r → r ∈ rs.

Section Program.

Context {W : Type} `{!Directory W} `{!Runtime}.

(** The state the program runs in: the remote world, the log of the calls
    made so far, and the number of [range] statements executed so far. *)
Record St := mkSt { world : W; calls : list Call; rng : nat }.

Definition record (c : Call) (w : W) (st : St) : St :=
  {| world := w; calls := calls st ++ [c]; rng := rng st |}.

(** Entering a [for k := range keys] loop. *)
Definition range (keys : gset string) (st : St) : list string * St :=
  (range_order (rng st) keys,
   {| world := world st; calls := calls st; rng := S (rng st) |}).

(** ** The adapter functions *)

Definition getApiMembers (gid role : string) (st : St)
  : (error + list string) * St :=
  let '(r, w) := Members_List gid role (world st) in
  match r with
  | inl err => (inl err, record (CallList gid role (Some err)) w st)
  | inr groupMembers =>
      (inr (foldl (λ apiMembers member,
                     if decide (Role member = role)
                     then apiMembers ++ [Email member]
                     else apiMembers) [] groupMembers),
       record (CallList gid role None) w st)
  end.

Definition addMember (mem gid role : string) (st : St) : option error * St :=
  let groupMember := {| Role := role; Email := mem |} in
  let '(r, w) := Members_Insert gid groupMember (world st) in
  match r with
  | inl err =>
      (Some ("Error creating groupMember: " +:+ err),
       record (CallInsert gid groupMember (Some err)) w st)
  | inr _ => (None, record (CallInsert gid groupMember None) w st)
  end.

Definition deleteMember (mem gid : string) (st : St) : option error * St :=
  let '(r, w) := Members_Delete gid mem (world st) in
  match r with
  | Some err =>
      (Some ("Error deleting group: " +:+ err),
       record (CallDelete gid mem (Some err)) w st)
  | None => (None, record (CallDelete gid mem None) w st)
  end.

Definition resourceRoleMembers (d : ResourceData) (key : string) : list string :=
  Set_List (GetSet d key).

(** ** The reconciler *)

(** The helper [m] of [reconcileMembers]: a slice as a map with empty
    values, that is, a set of keys. *)
Definition m (vals : list string) : gset string :=
  foldl (λ sm s, {[s]} ∪ sm) ∅ vals.

(** First loop of [reconcileMembers], over the keys of [apiMap] in the order
    [ks]: a key missing from [cfgMap] is removed remotely, a key present is
    struck from [cfgMap].  The first failing removal ends the function. *)
Fixpoint reconcile_remove (gid : string) (ks : list string)
    (cfgMap : gset string) (st : St) : (error + gset string) * St :=
  match ks with
  | [] => (inr cfgMap, st)
  | k :: ks' =>
      if decide (k ∈ cfgMap)
      then reconcile_remove gid ks' (cfgMap ∖ {[k]}) st
      else
        match deleteMember k gid st with
        | (Some err, st') => (inl err, st')
        | (None, st') => reconcile_remove gid ks' cfgMap st'
        end
  end.

(** Second loop, over what is left of [cfgMap]. *)
Fixpoint reconcile_add (gid role : string) (ks : list string) (st : St)
  : option error * St :=
  match ks with
  | [] => (None, st)
  | k :: ks' =>
      match addMember k gid role st with
      | (Some err, st') => (Some err, st')
      | (None, st') => reconcile_add gid role ks' st'
      end
  end.

Definition reconcileMembers (cfgMembers apiMembers : list string)
    (gid role : string) (st : St) : option error * St :=
  let cfgMap := m cfgMembers in
  let apiMap := m apiMembers in
  let '(ks, st1) := range apiMap st in
  match reconcile_remove gid ks cfgMap st1 with
  | (inl err, st2) => (Some err, st2)
  | (inr cfgMap', st2) =>
      let '(ks', st3) := range cfgMap' st2 in
      reconcile_add gid role ks' st3
  end.

(** ** The lifecycle operations *)

(** The loop over the roles that [resourceGroupMembersCreate] and
    [resourceGroupMembersUpdate] share word for word, up to the text [ctx]
    put in front of an error. *)
Fixpoint reconcile_roles (ctx : string) (d : ResourceData) (gid : string)
    (roles : list string) (st : St) : option error * St :=
  match roles with
  | [] => (None, st)
  | role :: roles' =>
      let cfgMembers := resourceRoleMembers d (rolesMap_at role) in
      match getApiMembers gid role st with
      | (inl err, st1) => (Some (ctx +:+ err), st1)
      | (inr apiMembers, st1) =>
          match reconcileMembers cfgMembers apiMembers gid role st1 with
          | (Some err, st2) => (Some (ctx +:+ err), st2)
          | (None, st2) => reconcile_roles ctx d gid roles' st2
          end
      end
  end.

(** The loop of [resourceGroupMembersRead]. *)
Fixpoint read_roles (d : ResourceData) (roles : list string) (st : St)
  : option error * ResourceData * St :=
  match roles with
  | [] => (None, d, st)
  | role :: roles' =>
      match getApiMembers (Id d) role st with
      | (inl err, st1) => (Some err, d, st1)
      | (inr roleMembers, st1) =>
          read_roles (SetSet d (rolesMap_at role) roleMembers) roles' st1
      end
  end.

Definition resourceGroupMembersRead (d : ResourceData) (st : St)
  : option error * ResourceData * St :=
  let '(roles, st0) := range (dom rolesMap) st in
  match read_roles d roles st0 with
  | (Some err, d', st1) => (Some err, d', st1)
  | (None, d', st1) => (None, SetGroup d' (Id d'), st1)
  end.

Definition resourceGroupMembersCreate (d : ResourceData) (st : St)
  : option error * ResourceData * St :=
  let gid := group d in
  let '(roles, st0) := range (dom rolesMap) st in
  match reconcile_roles "Error adding members: " d gid roles st0 with
  | (Some err, st1) => (Some err, d, st1)
  | (None, st1) => resourceGroupMembersRead (SetId d gid) st1
  end.

Definition resourceGroupMembersUpdate (d : ResourceData) (st : St)
  : option error * ResourceData * St :=
  let gid := group d in
  let '(roles, st0) := range (dom rolesMap) st in
  match reconcile_roles "Error updating memberships: " d gid roles st0 with
  | (Some err, st1) => (Some err, d, st1)
  | (None, st1) => resourceGroupMembersRead d st1
  end.

(** Inner loop of [resourceGroupMembersDelete]: the error [deleteMember]
    returns is dropped. *)
Fixpoint delete_members (gid : string) (roleMembers : list string) (st : St)
  : St :=
  match roleMembers with
  | [] => st
  | s :: rest => delete_members gid rest (deleteMember s gid st).2
  end.

Fixpoint delete_roles (d : ResourceData) (roles : list string) (st : St) : St :=
  match roles with
  | [] => st
  | role :: roles' =>
      let roleMembers := resourceRoleMembers d (rolesMap_at role) in
      delete_roles d roles' (delete_members (Id d) roleMembers st)
  end.

Definition resourceGroupMembersDelete (d : ResourceData) (st : St)
  : option error * ResourceData * St :=
  let '(roles, st0) := range (dom rolesMap) st in
  (None, SetId d "", delete_roles d roles st0).

(** ** Vocabulary of the statements *)

(** The calls logged between two states of one run. *)
Definition issued (st st' : St) : list Call :=
  drop (length (calls st)) (calls st').

(** One pass of the role loop for one role: fetch, then reconcile; the error
    is the one the loop puts its context in front of. *)
Definition role_pass (d : ResourceData) (gid role : string) (st : St)
  : option error * St :=
  match getApiMembers gid role st with
  | (inl err, st1) => (Some err, st1)
  | (inr apiMembers, st1) =>
      reconcileMembers (resourceRoleMembers d (rolesMap_at role)) apiMembers
        gid role st1
  end.

(** The roles [rs] are passed one after the other without an error, from
    state [st] to state [st']. *)
Inductive passes (d : ResourceData) (gid : string)
  : list string → St → St → Prop :=
| passes_nil st : passes d gid [] st st
| passes_cons r rs st st1 st2 :
    role_pass d gid r st = (None, st1) →
    passes d gid rs st1 st2 →
    passes d gid (r :: rs) st st2.

(** ** The copy loop of [resourceRoleMembers] *)

(** [members[i] = v]: an index out of range panics ([None]). *)
Definition set_index (members : list string) (i : nat) (v : string)
  : option (list string) :=
  if decide (i < length members) then Some (<[i := v]> members) else None.

(** [for i, v := range vals { members[i] = v }], from index [i] on. *)
Fixpoint fill_from (i : nat) (vals members : list string)
  : option (list string) :=
  match vals with
  | [] => Some members
  | v :: vals' =>
      match set_index members i v with
      | Some members' => fill_from (S i) vals' members'
      | None => None
      end
  end.

(** [resourceRoleMembers] with its slice made and filled the way the source
    does it: nothing for an attribute that reads as nil, otherwise
    [make([]string, ss.Len())] and one indexed write for each value of
    [ss.List()]. *)
Definition resourceRoleMembers_filled (d : ResourceData) (key : string)
  : option (list string) :=
  match sets d !! key with
  | None => Some []
  | Some ss => fill_from 0 (Set_List ss) (replicate (size ss) "")
  end.

End Program.

Arguments St W : clear implicits.

(** ** Concrete runtimes and directories *)

(** A runtime that visits keys in the order of [elements]. *)
#[export] Program Instance elements_runtime : Runtime := {|
  range_order := λ _ ks, elements ks;
  Set_List := elements
|}.
Next Obligation. reflexivity. Qed.
Next Obligation. reflexivity. Qed.

(** What a store does with a request to add a member that is already in the
    group: refuse it, or file the member under the new role. *)
Inductive Duplicates := Reject | Overwrite.

(** Modelled from the spec: the remote directory service behind the adapter,
    which is not part of the repository.  A store that keeps what it is told:
    a member of a group holds one role; [Members_List] returns the stored
    members of the role asked for; [Members_Delete] removes the member
    whatever its role and fails on a member that is not there;
    [Members_Insert] files the member under the given role.  For a member
    already in the group the spec has two readings: section 4.2 makes it an
    error ([Reject]), section 9 lets the last role win ([Overwrite]). *)
Record Store (p : Duplicates) := mkStore {
  entries : gmap (string * string) string
}.

Arguments mkStore {p} _.
Arguments entries {p} _.

Definition store_list {p} (gid role : string) (σ : Store p)
  : (error + list Member) * Store p :=
  (inr (omap (λ kv, if decide (kv.1.1 = gid ∧ kv.2 = role)
                    then Some {| Role := kv.2; Email := kv.1.2 |}
                    else None) (map_to_list (entries σ))), σ).

Definition store_insert {p} (gid : string) (mem : Member) (σ : Store p)
  : (error + Member) * Store p :=
  let filed := mkStore (<[(gid, Email mem) := Role mem]> (entries σ)) in
  match entries σ !! (gid, Email mem), p with
  | Some _, Reject => (inl "Member already exists.", σ)
  | Some _, Overwrite => (inr mem, filed)
  | None, _ => (inr mem, filed)
  end.

Definition store_delete {p} (gid email : string) (σ : Store p)
  : option error * Store p :=
  match entries σ !! (gid, email) with
  | Some _ => (None, mkStore (delete (gid, email) (entries σ)))
  | None => (Some "Resource Not Found: memberKey", σ)
  end.

#[export] Instance store_directory p : Directory (Store p) := {|
  Members_List := store_list;
  Members_Insert := store_insert;
  Members_Delete := store_delete
|}.

(** A store behind an unreliable transport: every call consumes one entry of
    a script; on [Some err] the call fails with [err] and the store is left
    alone, otherwise (or once the script is used up) the store answers. *)
Definition flaky_step {A : Type}
    (op : Store Reject → A * Store Reject) (fail : error → A)
    (w : Store Reject * list (option error))
  : A * (Store Reject * list (option error)) :=
  match w.2 with
  | Some err :: script => (fail err, (w.1, script))
  | None :: script => let '(r, σ) := op w.1 in (r, (σ, script))
  | [] => let '(r, σ) := op w.1 in (r, (σ, []))
  end.

#[export] Instance flaky_directory
  : Directory (Store Reject * list (option error)) := {|
  Members_List := λ gid role, flaky_step (store_list gid role) inl;
  Members_Insert := λ gid mem, flaky_step (store_insert gid mem) inl;
  Members_Delete := λ gid email, flaky_step (store_delete gid email) Some
|}.

(** A directory whose listing takes the role as a hint only: it returns
    every record it holds, whatever the role asked for. *)
#[export] Instance advisory_directory : Directory (list Member) := {|
  Members_List := λ _ _ w, (inr w, w);
  Members_Insert := λ _ mem w, (inr mem, w ++ [mem]);
  Members_Delete := λ _ email w,
    (None, filter (λ mem, Email mem ≠ email) w)
|}.

(** ** Sample data *)

(** Group ["g"] with owners b and c, as in the example of the spec. *)
Definition sample_store {p} : Store p :=
  mkStore (<[("g", "b@x") := "OWNER"]> (<[("g", "c@x") := "OWNER"]> ∅)).

(** The configuration asks for owners a and b and for member d. *)
Definition sample_entity : ResourceData :=
  {| Id := ""; group := "g";
     sets := <["owners" := {["a@x"; "b@x"]}]>
               (<["managers" := ∅]> (<["members" := {["d@x"]}]> ∅)) |}.

(** The configuration asks for a both as an owner and as a member. *)
Definition twice_entity : ResourceData :=
  {| Id := ""; group := "g";
     sets := <["owners" := {["a@x"]}]>
               (<["managers" := ∅]> (<["members" := {["a@x"]}]> ∅)) |}.

(** No member is asked for under two roles. *)
Definition disjoint_roles (d : ResourceData) : Prop :=
  ∀ r1 r2, r1 ∈ dom rolesMap → r2 ∈ dom rolesMap → r1 ≠ r2 →
           GetSet d (rolesMap_at r1) ## GetSet d (rolesMap_at r2).

(** [sub] occurs in [s]. *)
Definition embeds (sub s : string) : bool :=
  if String.index 0 sub s is Some _ then true else false.

(** The group a call is made on. *)
Definition call_gid (c : Call) : string :=
  match c with
  | CallList g _ _ | CallInsert g _ _ | CallDelete g _ _ => g
  end.

(** A call the reconciler may make for group [gid] and role [role]: a remove
    call on the group, or an add call on the group with the role. *)
Definition reconciles (gid role : string) (c : Call) : Prop :=
  match c with
  | CallDelete g _ _ => g = gid
  | CallInsert g mem _ => g = gid ∧ Role mem = role
  | CallList _ _ _ => False
  end.

(** The log entry of a listing that succeeded. *)
Definition list_ok (gid role : string) : Call := CallList gid role None.

(** The store files, under each role of the registry, exactly the members
    the entity records for the role. *)
Definition in_sync {p} (d : ResourceData) (gid : string) (σ : Store p) : Prop :=
  ∀ r e, r ∈ dom rolesMap →
         entries σ !! (gid, e) = Some r ↔ e ∈ GetSet d (rolesMap_at r).

(** The sample entity once created: its identifier is the group. *)
Definition created_entity : ResourceData := SetId sample_entity "g".

(** An entity whose group attribute was changed after it was created. *)
Definition regrouped_entity : ResourceData := SetId sample_entity "old".

(** Group ["g"] with owner a; group ["h"] with member z. *)
Definition two_groups_store {p} : Store p :=
  mkStore (<[("g", "a@x") := "OWNER"]> (<[("h", "z@x") := "MEMBER"]> ∅)).

(** The configuration asks for a as a member, and for no owner. *)
Definition demoted_entity : ResourceData :=
  {| Id := ""; group := "g";
     sets := <["owners" := ∅]>
               (<["managers" := ∅]> (<["members" := {["a@x"]}]> ∅)) |}.

(** * Properties *)

Section Properties.

Context {W : Type} `{!Directory W} `{!Runtime}.

Implicit Types (st : St W) (cs : list Call) (ks : list string).
Implicit Types (C : gset string) (d : ResourceData).

(** ** Slices as sets *)

Lemma m_list_to_set (vals : list string) : m vals = list_to_set vals.
Proof.
  unfold m.
  assert (G : ∀ acc : gset string,
             foldl (λ sm s, {[s]} ∪ sm) acc vals = list_to_set vals ∪ acc).
  { induction vals as [|v vals IH]; intros acc; simpl.
    - set_solver.
    - rewrite IH. set_solver. }
  rewrite G. set_solver.
Qed.

Lemma filter_ext_elem (P Q : string → Prop)
    `{!∀ x, Decision (P x), !∀ x, Decision (Q x)} ks :
  (∀ x, x ∈ ks → (P x ↔ Q x)) → filter P ks = filter Q ks.
Proof.
  induction ks as [|k ks IH]; intros HPQ; [done|].
  rewrite !filter_cons, IH.
  - apply decide_ext, HPQ. left.
  - intros x Hx. apply HPQ. by right.
Qed.

Lemma range_NoDup n (ks : gset string) : NoDup (range_order n ks).
Proof. rewrite range_order_perm. apply NoDup_elements. Qed.

Lemma range_elem_of n (ks : gset string) x : x ∈ range_order n ks ↔ x ∈ ks.
Proof. rewrite range_order_perm. apply elem_of_elements. Qed.

(** ** The log only grows *)

Lemma issued_app st st' cs : calls st' = calls st ++ cs → issued st st' = cs.
Proof. intros E. unfold issued. rewrite E. apply drop_app_length. Qed.

Lemma removed_del_ok gid ks : removed (del_ok gid <$> ks) = ks.
Proof. induction ks as [|k ks IH]; [done|]. unfold removed in *. csimpl. by rewrite IH. Qed.

Lemma added_del_ok gid ks : added (del_ok gid <$> ks) = [].
Proof. induction ks as [|k ks IH]; [done|]. unfold added, removed in *. csimpl. by rewrite IH. Qed.

Lemma removed_ins_ok gid role ks : removed (ins_ok gid role <$> ks) = [].
Proof. induction ks as [|k ks IH]; [done|]. unfold added, removed in *. csimpl. by rewrite IH. Qed.

Lemma added_ins_ok gid role ks : added (ins_ok gid role <$> ks) = ks.
Proof. induction ks as [|k ks IH]; [done|]. unfold added in *. csimpl. by rewrite IH. Qed.

Lemma removed_app cs1 cs2 : removed (cs1 ++ cs2) = removed cs1 ++ removed cs2.
Proof. apply omap_app. Qed.

Lemma added_app cs1 cs2 : added (cs1 ++ cs2) = added cs1 ++ added cs2.
Proof. apply omap_app. Qed.

Lemma Forall_call_ok_del gid ks : Forall call_ok (del_ok gid <$> ks).
Proof. apply Forall_fmap, Forall_forall. done. Qed.

Lemma Forall_call_ok_ins gid role ks : Forall call_ok (ins_ok gid role <$> ks).
Proof. apply Forall_fmap, Forall_forall. done. Qed.

(** ** The adapter functions, one call each *)

Lemma deleteMember_run mem gid st :
  ∃ r w,
    Members_Delete gid mem (world st) = (r, w) ∧
    deleteMember mem gid st =
      ((λ e, "Error deleting group: " +:+ e) <$> r,
       record (CallDelete gid mem r) w st).
Proof.
  unfold deleteMember.
  destruct (Members_Delete gid mem (world st)) as [[e|] w]; eauto.
Qed.

Lemma addMember_run mem gid role st :
  ∃ r w,
    Members_Insert gid {| Role := role; Email := mem |} (world st) = (r, w) ∧
    addMember mem gid role st =
      (match r with inl e => Some ("Error creating groupMember: " +:+ e)
                  | inr _ => None end,
       record (CallInsert gid {| Role := role; Email := mem |}
                 (match r with inl e => Some e | inr _ => None end)) w st).
Proof.
  unfold addMember.
  destruct (Members_Insert _ _ (world st)) as [[e|x] w]; eauto.
Qed.

(** ** The two loops of the reconciler *)

Lemma reconcile_remove_run gid ks C st res st' :
  NoDup ks →
  reconcile_remove gid ks C st = (res, st') →
  rng st' = rng st ∧
  match res with
  | inr C' =>
      C' = C ∖ list_to_set ks ∧
      calls st' = calls st ++ (del_ok gid <$> filter (.∉ C) ks)
  | inl e =>
      ∃ ks1 k ks2 e0,
        filter (.∉ C) ks = ks1 ++ k :: ks2 ∧
        e = "Error deleting group: " +:+ e0 ∧
        calls st' =
          calls st ++ (del_ok gid <$> ks1) ++ [CallDelete gid k (Some e0)]
  end.
Proof.
  intros ND. revert C st.
  induction ND as [|k ks Hk ND IH]; intros C st Hrun; simpl in Hrun.
  - inversion Hrun; subst. split; [done|]. split; [set_solver|].
    by rewrite app_nil_r.
  - destruct (decide (k ∈ C)) as [Hin|Hnin].
    + apply IH in Hrun as [Hrng Hres]. split; [done|].
      assert (Hf : filter (.∉ C ∖ {[k]}) ks = filter (.∉ C) ks).
      { apply filter_ext_elem. intros x Hx.
        assert (x ≠ k) by (intros ->; done). set_solver. }
      rewrite (filter_cons_False (.∉ C)) by (intros ?; done).
      rewrite Hf in Hres.
      destruct res as [e|C']; [done|].
      destruct Hres as [-> Hc]. split; [set_solver|done].
    + rewrite (filter_cons_True (.∉ C)) by done.
      destruct (deleteMember_run k gid st) as (r & w & _ & Hd).
      rewrite Hd in Hrun. destruct r as [e0|]; simpl in Hrun.
      * inversion Hrun; subst. split; [done|].
        exists [], k, (filter (.∉ C) ks), e0. done.
      * apply IH in Hrun as [Hrng Hres]. split; [done|].
        simpl in Hres. destruct res as [e|C'].
        -- destruct Hres as (ks1 & k' & ks2 & e0 & Hf & -> & Hc).
           exists (k :: ks1), k', ks2, e0. rewrite Hf. split; [done|].
           split; [done|]. rewrite Hc, <- !app_assoc. done.
        -- destruct Hres as [-> Hc]. split; [set_solver|].
           rewrite Hc, <- app_assoc. done.
Qed.

Lemma reconcile_add_run gid role ks st res st' :
  reconcile_add gid role ks st = (res, st') →
  rng st' = rng st ∧
  match res with
  | None => calls st' = calls st ++ (ins_ok gid role <$> ks)
  | Some e =>
      ∃ ks1 k ks2 e0,
        ks = ks1 ++ k :: ks2 ∧
        e = "Error creating groupMember: " +:+ e0 ∧
        calls st' =
          calls st ++ (ins_ok gid role <$> ks1) ++
            [CallInsert gid {| Role := role; Email := k |} (Some e0)]
  end.
Proof.
  revert st. induction ks as [|k ks IH]; intros st Hrun; simpl in Hrun.
  - inversion Hrun; subst. split; [done|]. by rewrite app_nil_r.
  - destruct (addMember_run k gid role st) as (r & w & _ & Ha).
    rewrite Ha in Hrun. destruct r as [e0|x]; simpl in Hrun.
    + inversion Hrun; subst. split; [done|].
      exists [], k, ks, e0. done.
    + apply IH in Hrun as [Hrng Hres]. split; [done|].
      simpl in Hres. destruct res as [e|].
      * destruct Hres as (ks1 & k' & ks2 & e0 & -> & -> & Hc).
        exists (k :: ks1), k', ks2, e0. split; [done|]. split; [done|].
        rewrite Hc, <- !app_assoc. done.
      * rewrite Hres, <- app_assoc. done.
Qed.

(** Every run of [reconcileMembers] is one of the three outcomes, over an
    enumeration of [actual − desired] and one of [desired − actual]. *)
Lemma reconcileMembers_run cfg api gid role st res st' :
  reconcileMembers cfg api gid role st = (res, st') →
  ∃ rems adds,
    rems ≡ₚ elements (list_to_set api ∖ list_to_set cfg : gset string) ∧
    adds ≡ₚ elements (list_to_set cfg ∖ list_to_set api : gset string) ∧
    Outcome gid role rems adds res (issued st st') ∧
    calls st' = calls st ++ issued st st'.
Proof.
  unfold reconcileMembers, range. rewrite !m_list_to_set.
  set (desired := list_to_set cfg : gset string).
  set (actual := list_to_set api : gset string).
  set (ks := range_order (rng st) actual).
  set (st1 := {| world := world st; calls := calls st; rng := S (rng st) |}).
  intros Hrun.
  exists (filter (.∉ desired) ks), (range_order (S (rng st)) (desired ∖ actual)).
  assert (Hrems : filter (.∉ desired) ks ≡ₚ elements (actual ∖ desired)).
  { apply NoDup_Permutation.
    - apply NoDup_filter, range_NoDup.
    - apply NoDup_elements.
    - intros x. rewrite list_elem_of_filter, elem_of_elements.
      unfold ks. rewrite range_elem_of. set_solver. }
  split; [done|]. split; [apply range_order_perm|].
  destruct (reconcile_remove gid ks desired st1) as [[e|C'] st2] eqn:Hrem.
  - inversion Hrun; subst res st'.
    apply reconcile_remove_run in Hrem as [_ Hres]; [|apply range_NoDup].
    destruct Hres as (ks1 & k & ks2 & e0 & Hf & -> & Hc).
    rewrite (issued_app st st2 _ Hc). split; [by eapply RemoveFailed|done].
  - apply reconcile_remove_run in Hrem as [Hrng [-> Hc]]; [|apply range_NoDup].
    assert (Hset : desired ∖ list_to_set ks = desired ∖ actual).
    { apply set_eq. intros x. rewrite !elem_of_difference, elem_of_list_to_set.
      unfold ks. by rewrite range_elem_of. }
    rewrite Hset, Hrng in Hrun. simpl in Hrun.
    apply reconcile_add_run in Hrun as [_ Hres].
    simpl in Hres, Hc. rewrite Hc in Hres. destruct res as [e|].
    + destruct Hres as (ks1 & k & ks2 & e0 & Ha & -> & Hc').
      rewrite <- app_assoc in Hc'. rewrite (issued_app st st' _ Hc').
      split; [by eapply AddFailed|done].
    + rewrite <- app_assoc in Hres. rewrite (issued_app st st' _ Hres).
      split; [apply AllDone|done].
Qed.

(** A failed call is not among successful ones. *)
Lemma failed_not_in_ok c cs :
  Forall call_ok cs → c ∈ cs → call_err c = None.
Proof. intros Hok Hc. by apply (proj1 (Forall_forall _ _) Hok). Qed.

Lemma Forall_call_ok_done gid role rems adds :
  Forall call_ok ((del_ok gid <$> rems) ++ (ins_ok gid role <$> adds)).
Proof.
  apply Forall_app. split; [apply Forall_call_ok_del|apply Forall_call_ok_ins].
Qed.

Lemma elem_of_ok_calls c gid role rems adds :
  c ∈ (del_ok gid <$> rems) ++ (ins_ok gid role <$> adds) → call_err c = None.
Proof. apply failed_not_in_ok, Forall_call_ok_done. Qed.

Lemma not_ok_snoc cs c : ¬ call_ok c → ¬ Forall call_ok (cs ++ [c]).
Proof.
  intros Hc Hall. apply Forall_app in Hall as [_ Hlast].
  by inversion Hlast.
Qed.

(** ** The reconciler: minimality *)

(** C1. Whenever every call the reconciler issued succeeded, it returned
    success, and the calls it issued are one remove call for each member of
    [actual − desired] and one add call for each member of
    [desired − actual], nothing else; a member of both sets is the subject of
    no call.  When the two sets are equal, no call is issued at all and the
    result is success. *)
Theorem reconcileMembers_minimal cfg api gid role st res st' :
  reconcileMembers cfg api gid role st = (res, st') →
  let desired : gset string := list_to_set cfg in
  let actual : gset string := list_to_set api in
  let cs := issued st st' in
  (Forall call_ok cs →
     res = None ∧
     cs ≡ₚ ((del_ok gid <$> elements (actual ∖ desired)) ++
             (ins_ok gid role <$> elements (desired ∖ actual))) ∧
     removed cs ≡ₚ elements (actual ∖ desired) ∧
     added cs ≡ₚ elements (desired ∖ actual) ∧
     (∀ x, x ∈ desired → x ∈ actual → (x ∉ removed cs) ∧ (x ∉ added cs))) ∧
  (desired = actual → res = None ∧ cs = []).
Proof.
  intros Hrun. cbv zeta.
  destruct (reconcileMembers_run _ _ _ _ _ _ _ Hrun)
    as (rems & adds & Hrems & Hadds & Hout & _).
  revert Hrems Hadds Hout.
  generalize (issued st st') (list_to_set cfg : gset string)
    (list_to_set api : gset string).
  intros cs desired actual Hrems Hadds Hout. split.
  - intros Hok.
    inversion Hout as [Hres Hcs|ks1 k ks2 e0 _ Hres Hcs|ks1 k ks2 e0 _ Hres Hcs];
      subst cs.
    + rewrite removed_app, removed_del_ok, removed_ins_ok, app_nil_r.
      rewrite added_app, added_del_ok, added_ins_ok. simpl.
      split; [done|]. split; [by rewrite Hrems, Hadds|].
      split; [done|]. split; [done|].
      intros x Hd Ha'. rewrite Hrems, Hadds, !elem_of_elements. set_solver.
    + exfalso. revert Hok. apply not_ok_snoc. intros Hc. inversion Hc.
    + exfalso. revert Hok. rewrite !app_assoc. apply not_ok_snoc.
      intros Hc. inversion Hc.
  - intros Heq. rewrite Heq in Hrems, Hadds.
    replace (actual ∖ actual) with (∅ : gset string) in * by set_solver.
    rewrite elements_empty in Hrems, Hadds.
    apply Permutation_nil_r in Hrems, Hadds. subst rems adds.
    inversion Hout as [Hres Hcs|ks1 k ks2 e0 Hk Hres Hcs|ks1 k ks2 e0 Hk Hres Hcs].
    + done.
    + by destruct ks1.
    + by destruct ks1.
Qed.

(** ** The reconciler: failures *)

Lemma not_elem_of_later (ks1 ks2 : list string) k x :
  NoDup (ks1 ++ k :: ks2) → x ∈ ks2 → x ∉ ks1 ++ [k].
Proof.
  intros ND Hx.
  apply NoDup_app in ND as (_ & Hdisj & ND2).
  apply NoDup_cons in ND2 as [Hk2 _].
  intros [Hx1|Hx1]%elem_of_app.
  - apply (Hdisj x Hx1). by right.
  - apply list_elem_of_singleton in Hx1. by subst x.
Qed.

(** C3. When a remove call issued by the reconciler fails, the reconciler
    returns the error [deleteMember] makes of that call's error; the failing
    call is the last call of the run, so no add call is issued; and the
    calls before it are successful removals: the members of
    [actual − desired] that come after the failing one in the order of the
    visit are the subject of no call. *)
Theorem reconcileMembers_remove_fails cfg api gid role st res st' g k e0 :
  reconcileMembers cfg api gid role st = (res, st') →
  CallDelete g k (Some e0) ∈ issued st st' →
  let desired : gset string := list_to_set cfg in
  let actual : gset string := list_to_set api in
  let cs := issued st st' in
  g = gid ∧
  res = Some ("Error deleting group: " +:+ e0) ∧
  added cs = [] ∧
  ∃ ks1 ks2,
    (ks1 ++ k :: ks2) ≡ₚ elements (actual ∖ desired) ∧
    cs = (del_ok gid <$> ks1) ++ [CallDelete gid k (Some e0)] ∧
    ∀ x, x ∈ ks2 → x ∉ removed cs.
Proof.
  intros Hrun Hin. cbv zeta.
  destruct (reconcileMembers_run _ _ _ _ _ _ _ Hrun)
    as (rems & adds & Hrems & Hadds & Hout & _).
  revert Hin Hrems Hadds Hout.
  generalize (issued st st') (list_to_set cfg : gset string)
    (list_to_set api : gset string).
  intros cs desired actual Hin Hrems Hadds Hout.
  inversion Hout as [Hres Hcs|ks1 k' ks2 e0' Hk Hres Hcs|ks1 k' ks2 e0' Hk Hres Hcs];
    subst cs.
  - by apply elem_of_ok_calls in Hin.
  - apply elem_of_app in Hin as [Hin|Hin].
    + by apply (failed_not_in_ok _ _ (Forall_call_ok_del _ _)) in Hin.
    + apply list_elem_of_singleton in Hin. inversion Hin; subst g k' e0'.
      split; [done|]. split; [done|].
      split. { by rewrite added_app, added_del_ok. }
      exists ks1, ks2. rewrite <- Hk. split; [done|]. split; [done|].
      intros x Hx. rewrite removed_app, removed_del_ok. simpl.
      apply (not_elem_of_later ks1 ks2 k x); [|done].
      rewrite <- Hk, Hrems. apply NoDup_elements.
  - rewrite app_assoc in Hin. apply elem_of_app in Hin as [Hin|Hin].
    + by apply elem_of_ok_calls in Hin.
    + by apply list_elem_of_singleton in Hin.
Qed.

(** C4. When an add call issued by the reconciler fails, every remove call
    of the run has been made and has succeeded, the reconciler returns the
    error [addMember] makes of the failing call's error, and the failing
    call is the last call of the run: the members of [desired − actual] that
    come after the failing one in the order of the visit are the subject of
    no call. *)
Theorem reconcileMembers_add_fails cfg api gid role st res st' g mem e0 :
  reconcileMembers cfg api gid role st = (res, st') →
  CallInsert g mem (Some e0) ∈ issued st st' →
  let desired : gset string := list_to_set cfg in
  let actual : gset string := list_to_set api in
  let cs := issued st st' in
  g = gid ∧ Role mem = role ∧
  res = Some ("Error creating groupMember: " +:+ e0) ∧
  removed cs ≡ₚ elements (actual ∖ desired) ∧
  Forall call_ok (filter is_delete cs) ∧
  ∃ rems ks1 ks2,
    (ks1 ++ Email mem :: ks2) ≡ₚ elements (desired ∖ actual) ∧
    cs = (del_ok gid <$> rems) ++ (ins_ok gid role <$> ks1) ++
           [CallInsert gid mem (Some e0)] ∧
    ∀ x, x ∈ ks2 → x ∉ added cs.
Proof.
  intros Hrun Hin. cbv zeta.
  destruct (reconcileMembers_run _ _ _ _ _ _ _ Hrun)
    as (rems & adds & Hrems & Hadds & Hout & _).
  revert Hin Hrems Hadds Hout.
  generalize (issued st st') (list_to_set cfg : gset string)
    (list_to_set api : gset string).
  intros cs desired actual Hin Hrems Hadds Hout.
  inversion Hout as [Hres Hcs|ks1 k' ks2 e0' Hk Hres Hcs|ks1 k' ks2 e0' Hk Hres Hcs];
    subst cs.
  - by apply elem_of_ok_calls in Hin.
  - apply elem_of_app in Hin as [Hin|Hin].
    + by apply (failed_not_in_ok _ _ (Forall_call_ok_del _ _)) in Hin.
    + by apply list_elem_of_singleton in Hin.
  - rewrite app_assoc in Hin. apply elem_of_app in Hin as [Hin|Hin].
    + by apply elem_of_ok_calls in Hin.
    + apply list_elem_of_singleton in Hin. inversion Hin; subst g mem e0'.
      simpl. split; [done|]. split; [done|]. split; [done|].
      split.
      { rewrite !removed_app, removed_del_ok, removed_ins_ok. simpl.
        by rewrite app_nil_r. }
      split.
      { rewrite app_assoc, filter_app.
        rewrite (filter_cons_False _ (CallInsert _ _ _)) by (simpl; auto).
        rewrite filter_nil, app_nil_r.
        apply Forall_forall. intros c [_ Hc]%list_elem_of_filter.
        by eapply elem_of_ok_calls. }
      exists rems, ks1, ks2. rewrite <- Hk. split; [done|]. split; [done|].
      intros x Hx. rewrite !added_app, added_del_ok, added_ins_ok. simpl.
      apply (not_elem_of_later ks1 ks2 k' x); [|done].
      rewrite <- Hk, Hadds. apply NoDup_elements.
Qed.

(** ** The reconciler sees its inputs as sets *)

Lemma Outcome_NoDup gid role rems adds res cs :
  NoDup rems → NoDup adds → Outcome gid role rems adds res cs →
  NoDup (removed cs) ∧ NoDup (added cs).
Proof.
  intros NDr NDa Hout.
  inversion Hout as [Hres Hcs|ks1 k ks2 e0 Hk Hres Hcs|ks1 k ks2 e0 Hk Hres Hcs];
    subst cs; rewrite ?removed_app, ?added_app, ?removed_del_ok, ?added_del_ok,
      ?removed_ins_ok, ?added_ins_ok; simpl; rewrite ?app_nil_r.
  - done.
  - split; [|constructor]. subst rems.
    apply NoDup_app in NDr as (ND1 & Hdisj & [Hk2 _]%NoDup_cons).
    apply NoDup_app. split; [done|]. split; [|apply NoDup_singleton].
    intros x Hx1 ->%list_elem_of_singleton. apply (Hdisj k Hx1). left.
  - split; [done|]. subst adds.
    apply NoDup_app in NDa as (ND1 & Hdisj & [Hk2 _]%NoDup_cons).
    apply NoDup_app. split; [done|]. split; [|apply NoDup_singleton].
    intros x Hx1 ->%list_elem_of_singleton. apply (Hdisj k Hx1). left.
Qed.

(** C9. Two pairs of input lists with the same elements, whatever their
    order and repetitions, make the reconciler run the same way: same
    result, same calls, same final state.  And no run, with or without
    repeated ids in its inputs, names a member in two remove calls or in two
    add calls. *)
Theorem reconcileMembers_set_semantic cfg cfg' api api' gid role st :
  (∀ x, x ∈ cfg ↔ x ∈ cfg') →
  (∀ x, x ∈ api ↔ x ∈ api') →
  reconcileMembers cfg api gid role st = reconcileMembers cfg' api' gid role st ∧
  NoDup (removed (issued st (reconcileMembers cfg api gid role st).2)) ∧
  NoDup (added (issued st (reconcileMembers cfg api gid role st).2)).
Proof.
  intros Hcfg Hapi. split.
  - unfold reconcileMembers. rewrite !m_list_to_set.
    assert (E1 : (list_to_set cfg : gset string) = list_to_set cfg').
    { apply set_eq. intros x. by rewrite !elem_of_list_to_set. }
    assert (E2 : (list_to_set api : gset string) = list_to_set api').
    { apply set_eq. intros x. by rewrite !elem_of_list_to_set. }
    by rewrite E1, E2.
  - destruct (reconcileMembers cfg api gid role st) as [res st'] eqn:Hrun.
    destruct (reconcileMembers_run _ _ _ _ _ _ _ Hrun)
      as (rems & adds & Hrems & Hadds & Hout & _).
    simpl. eapply Outcome_NoDup; [| |exact Hout].
    + rewrite Hrems. apply NoDup_elements.
    + rewrite Hadds. apply NoDup_elements.
Qed.

(** ** The adapter functions *)

(** C7, as the program has it. When the insert call fails, the error
    [addMember] returns is the fixed text ["Error creating groupMember: "]
    followed by the text of the error of the call, whatever the member id,
    the group id and the role: what the message says of the member and of
    the role is what the error of the call says of them. *)
Theorem addMember_error_message mem gid role st e w :
  Members_Insert gid {| Role := role; Email := mem |} (world st) = (inl e, w) →
  addMember mem gid role st =
    (Some ("Error creating groupMember: " +:+ e),
     record (CallInsert gid {| Role := role; Email := mem |} (Some e)) w st).
Proof. intros Hins. unfold addMember. by rewrite Hins. Qed.

Lemma getApiMembers_loop role (groupMembers : list Member) (acc : list string) :
  foldl (λ apiMembers member,
           if decide (Role member = role)
           then apiMembers ++ [Email member] else apiMembers) acc groupMembers
  = acc ++ (Email <$> filter (λ member, Role member = role) groupMembers).
Proof.
  revert acc. induction groupMembers as [|x l IH]; intros acc; simpl.
  - by rewrite app_nil_r.
  - rewrite IH, filter_cons. destruct (decide (Role x = role)); [|done].
    by rewrite <- app_assoc.
Qed.

Lemma getApiMembers_listed gid role st groupMembers w :
  Members_List gid role (world st) = (inr groupMembers, w) →
  getApiMembers gid role st =
    (inr (Email <$> filter (λ member, Role member = role) groupMembers),
     record (CallList gid role None) w st).
Proof.
  intros Hlist. unfold getApiMembers. rewrite Hlist.
  by rewrite getApiMembers_loop.
Qed.

Lemma elem_of_listed role (groupMembers : list Member) e :
  e ∈ Email <$> filter (λ member, Role member = role) groupMembers
  ↔ ∃ member, member ∈ groupMembers ∧ Email member = e ∧ Role member = role.
Proof.
  rewrite list_elem_of_fmap. split.
  - intros (x & -> & [Hr Hx]%list_elem_of_filter). eauto.
  - intros (x & Hx & <- & Hr). exists x. split; [done|].
    by apply list_elem_of_filter.
Qed.

(** C8. When the listing call succeeds, the result of [getApiMembers] is the
    emails of exactly those returned records whose role field equals the
    role asked for, in the order returned: a record of another role
    contributes nothing.  When the listing call fails, [getApiMembers]
    returns the error of the call, and no members. *)
Theorem getApiMembers_filters_by_role gid role st :
  (∀ groupMembers w,
     Members_List gid role (world st) = (inr groupMembers, w) →
     let apiMembers :=
       Email <$> filter (λ member, Role member = role) groupMembers in
     getApiMembers gid role st =
       (inr apiMembers, record (CallList gid role None) w st) ∧
     ∀ e, e ∈ apiMembers ↔
          ∃ member, member ∈ groupMembers ∧ Email member = e ∧
                    Role member = role) ∧
  (∀ err w,
     Members_List gid role (world st) = (inl err, w) →
     getApiMembers gid role st =
       (inl err, record (CallList gid role (Some err)) w st)).
Proof.
  split.
  - intros groupMembers w Hlist. cbv zeta.
    split; [by apply getApiMembers_listed|apply elem_of_listed].
  - intros err w Hlist. unfold getApiMembers. by rewrite Hlist.
Qed.

(** ** Delete *)

Lemma removed_zip gid ks (errs : list (option error)) :
  length errs = length ks → removed (zip_with (CallDelete gid) ks errs) = ks.
Proof.
  revert errs. induction ks as [|k ks IH]; intros [|e errs] Hlen;
    try done. unfold removed in *. csimpl. rewrite IH; [done|].
  simpl in Hlen. lia.
Qed.

Lemma zip_with_app_same gid ks1 ks2 (errs1 errs2 : list (option error)) :
  length errs1 = length ks1 →
  zip_with (CallDelete gid) ks1 errs1 ++ zip_with (CallDelete gid) ks2 errs2
  = zip_with (CallDelete gid) (ks1 ++ ks2) (errs1 ++ errs2).
Proof. intros Hlen. by rewrite zip_with_app. Qed.

Lemma delete_members_run gid ks st :
  ∃ errs,
    length errs = length ks ∧
    calls (delete_members gid ks st)
      = calls st ++ zip_with (CallDelete gid) ks errs.
Proof.
  revert st. induction ks as [|k ks IH]; intros st; simpl.
  - exists []. by rewrite app_nil_r.
  - destruct (deleteMember_run k gid st) as (r & w & _ & Hd). rewrite Hd.
    destruct (IH (record (CallDelete gid k r) w st)) as (errs & Hlen & Hc).
    exists (r :: errs). split; [simpl; lia|].
    simpl in *. rewrite Hc, <- app_assoc. done.
Qed.

Lemma delete_roles_run d roles st :
  ∃ errs,
    let targets :=
      roles ≫= (λ role, resourceRoleMembers d (rolesMap_at role)) in
    length errs = length targets ∧
    calls (delete_roles d roles st)
      = calls st ++ zip_with (CallDelete (Id d)) targets errs.
Proof.
  revert st. induction roles as [|role roles IH]; intros st.
  - exists []. simpl. by rewrite app_nil_r.
  - set (ks := resourceRoleMembers d (rolesMap_at role)).
    destruct (delete_members_run (Id d) ks st) as (errs1 & Hlen1 & Hc1).
    destruct (IH (delete_members (Id d) ks st)) as (errs2 & Hlen2 & Hc2).
    exists (errs1 ++ errs2). cbv zeta in *.
    change (delete_roles d (role :: roles) st)
      with (delete_roles d roles (delete_members (Id d) ks st)).
    change ((role :: roles) ≫= (λ role, resourceRoleMembers d (rolesMap_at role)))
      with (ks ++ roles ≫= (λ role, resourceRoleMembers d (rolesMap_at role))).
    split.
    + rewrite !length_app. lia.
    + rewrite Hc2, Hc1, <- app_assoc. f_equal.
      by apply zip_with_app_same.
Qed.

(** C6. Whatever the recorded state and whatever the directory answers,
    [resourceGroupMembersDelete] returns success and leaves the identifier
    empty; the calls it issues are remove calls on the group of the
    identifier, one for each member recorded under each role, role after
    role; the errors these calls come back with appear in the log and
    nowhere else. *)
Theorem resourceGroupMembersDelete_best_effort d st :
  ∃ roles errs st',
    let targets :=
      roles ≫= (λ role, resourceRoleMembers d (rolesMap_at role)) in
    resourceGroupMembersDelete d st = (None, SetId d "", st') ∧
    Id (SetId d "") = "" ∧
    roles ≡ₚ elements (dom rolesMap) ∧
    (∀ role, resourceRoleMembers d (rolesMap_at role)
               ≡ₚ elements (GetSet d (rolesMap_at role))) ∧
    length errs = length targets ∧
    issued st st' = zip_with (CallDelete (Id d)) targets errs ∧
    removed (issued st st') = targets.
Proof.
  set (roles := range_order (rng st) (dom rolesMap)).
  set (st0 := {| world := world st; calls := calls st; rng := S (rng st) |}).
  destruct (delete_roles_run d roles st0) as (errs & Hlen & Hc).
  exists roles, errs, (delete_roles d roles st0). cbv zeta in *.
  assert (Hi : issued st (delete_roles d roles st0)
               = zip_with (CallDelete (Id d))
                   (roles ≫= (λ role, resourceRoleMembers d (rolesMap_at role)))
                   errs).
  { by apply issued_app. }
  split; [done|]. split; [done|]. split; [apply range_order_perm|].
  split; [intros role; apply Set_List_perm|]. split; [done|].
  split; [done|]. rewrite Hi. by apply removed_zip.
Qed.

(** ** The loop over the roles *)

Lemma reconcile_roles_app ctx d gid rs1 rs2 st st1 :
  reconcile_roles ctx d gid rs1 st = (None, st1) →
  reconcile_roles ctx d gid (rs1 ++ rs2) st = reconcile_roles ctx d gid rs2 st1.
Proof.
  revert st. induction rs1 as [|r rs1 IH]; intros st Hrun; simpl in *.
  - by inversion Hrun.
  - destruct (getApiMembers gid r st) as [[e|apiMembers] sta]; [done|].
    destruct (reconcileMembers _ apiMembers gid r sta) as [[e|] stb]; [done|].
    by apply IH.
Qed.

Lemma reconcile_roles_pass_fails ctx d gid r rs st e0 st' :
  role_pass d gid r st = (Some e0, st') →
  reconcile_roles ctx d gid (r :: rs) st = (Some (ctx +:+ e0), st').
Proof.
  unfold role_pass. simpl.
  destruct (getApiMembers gid r st) as [[e|apiMembers] st1].
  - by intros [= -> ->].
  - by intros ->.
Qed.

Lemma getApiMembers_calls gid role st res st' :
  getApiMembers gid role st = (res, st') →
  ∃ err, calls st' = calls st ++ [CallList gid role err] ∧
         (∀ e, res = inl e → err = Some e).
Proof.
  unfold getApiMembers.
  destruct (Members_List gid role (world st)) as [[e|l] w]; intros [= <- <-].
  - exists (Some e). split; [done|]. by intros ? [= ->].
  - exists None. done.
Qed.

Lemma Outcome_names_only gid role rems adds res cs :
  Outcome gid role rems adds res cs → Forall (names_only [role]) cs.
Proof.
  assert (Hd : ∀ ks, Forall (names_only [role]) (del_ok gid <$> ks)).
  { intros ks. apply Forall_fmap, Forall_forall. by intros k _ r. }
  assert (Hi : ∀ ks, Forall (names_only [role]) (ins_ok gid role <$> ks)).
  { intros ks. apply Forall_fmap, Forall_forall.
    intros k _ r [= <-]. left. }
  intros Hout.
  inversion Hout as [Hres Hcs|ks1 k ks2 e0 Hk Hres Hcs|ks1 k ks2 e0 Hk Hres Hcs];
    subst cs; rewrite ?Forall_app; repeat split; try done.
  - constructor; [|constructor]. by intros r.
  - constructor; [|constructor]. intros r [= <-]. left.
Qed.

Lemma role_pass_calls d gid r st res st' :
  role_pass d gid r st = (res, st') →
  calls st' = calls st ++ issued st st' ∧
  Forall (names_only [r]) (issued st st').
Proof.
  unfold role_pass.
  destruct (getApiMembers gid r st) as [[e|apiMembers] st1] eqn:Hget;
    apply getApiMembers_calls in Hget as (err & Hc1 & _).
  - intros [= <- <-]. rewrite (issued_app _ _ _ Hc1). split; [done|].
    constructor; [|constructor]. intros r' [= <-]. left.
  - intros Hrun.
    destruct (reconcileMembers_run _ _ _ _ _ _ _ Hrun)
      as (rems & adds & _ & _ & Hout & Hc2).
    rewrite Hc1, <- app_assoc in Hc2. rewrite (issued_app _ _ _ Hc2).
    split; [done|]. constructor.
    + intros r' [= <-]. left.
    + by eapply Outcome_names_only.
Qed.

Lemma names_only_mono rs rs' cs :
  (∀ r, r ∈ rs → r ∈ rs') →
  Forall (names_only rs) cs → Forall (names_only rs') cs.
Proof.
  intros Hsub Hall. eapply Forall_impl; [exact Hall|].
  intros c Hc r Hr. by apply Hsub, Hc.
Qed.

Lemma reconcile_roles_calls ctx d gid rs st res st' :
  reconcile_roles ctx d gid rs st = (res, st') →
  calls st' = calls st ++ issued st st' ∧
  Forall (names_only rs) (issued st st').
Proof.
  revert st. induction rs as [|r rs IH]; intros st Hrun.
  - simpl in Hrun. inversion Hrun; subst.
    rewrite (issued_app st' st' []) by (by rewrite app_nil_r).
    by rewrite app_nil_r.
  - destruct (role_pass d gid r st) as [[e0|] st1] eqn:Hpass.
    + rewrite (reconcile_roles_pass_fails ctx _ _ _ rs _ _ _ Hpass) in Hrun.
      inversion Hrun; subst.
      apply role_pass_calls in Hpass as [Hc Hn]. split; [done|].
      eapply names_only_mono; [|exact Hn]. set_solver.
    + assert (Hstep : reconcile_roles ctx d gid (r :: rs) st
                      = reconcile_roles ctx d gid rs st1).
      { revert Hpass. unfold role_pass. simpl.
        destruct (getApiMembers gid r st) as [[e|apiMembers] st2]; [done|].
        by intros ->. }
      rewrite Hstep in Hrun. apply IH in Hrun as [Hc2 Hn2].
      apply role_pass_calls in Hpass as [Hc1 Hn1].
      rewrite Hc1, <- app_assoc in Hc2. rewrite (issued_app _ _ _ Hc2).
      split; [done|]. apply Forall_app. split.
      * eapply names_only_mono; [|exact Hn1]. set_solver.
      * eapply names_only_mono; [|exact Hn2]. set_solver.
Qed.

Lemma reconcile_roles_cons_pass ctx d gid r rs st st1 :
  role_pass d gid r st = (None, st1) →
  reconcile_roles ctx d gid (r :: rs) st = reconcile_roles ctx d gid rs st1.
Proof.
  unfold role_pass. simpl.
  destruct (getApiMembers gid r st) as [[e|apiMembers] st2]; [done|].
  by intros ->.
Qed.

Lemma passes_reconcile_roles ctx d gid rs st st1 :
  passes d gid rs st st1 ↔ reconcile_roles ctx d gid rs st = (None, st1).
Proof.
  split.
  - induction 1 as [st|r rs st sta stb Hpass _ IH]; [done|].
    by rewrite (reconcile_roles_cons_pass ctx _ _ _ _ _ _ Hpass).
  - revert st. induction rs as [|r rs IH]; intros st Hrun.
    + simpl in Hrun. inversion Hrun. constructor.
    + destruct (role_pass d gid r st) as [[e0|] sta] eqn:Hpass.
      * by rewrite (reconcile_roles_pass_fails ctx _ _ _ rs _ _ _ Hpass) in Hrun.
      * rewrite (reconcile_roles_cons_pass ctx _ _ _ _ _ _ Hpass) in Hrun.
        econstructor; [exact Hpass|]. by apply IH.
Qed.

Lemma role_loop_fail_fast ctx d gid rs1 r rs2 st st1 st2 e0 :
  NoDup (rs1 ++ r :: rs2) →
  passes d gid rs1 st st1 →
  role_pass d gid r st1 = (Some e0, st2) →
  reconcile_roles ctx d gid (rs1 ++ r :: rs2) st = (Some (ctx +:+ e0), st2) ∧
  ∀ c, c ∈ issued st st2 → ∀ r', call_role c = Some r' → r' ∉ rs2.
Proof.
  intros ND Hpasses Hfail.
  apply (passes_reconcile_roles ctx) in Hpasses.
  assert (Hrun : reconcile_roles ctx d gid (rs1 ++ r :: rs2) st
                 = (Some (ctx +:+ e0), st2)).
  { rewrite (reconcile_roles_app _ _ _ _ _ _ _ Hpasses).
    by apply reconcile_roles_pass_fails. }
  split; [done|].
  assert (Hrun' : reconcile_roles ctx d gid (rs1 ++ [r]) st
                  = (Some (ctx +:+ e0), st2)).
  { rewrite (reconcile_roles_app _ _ _ _ _ _ _ Hpasses).
    by apply reconcile_roles_pass_fails. }
  apply reconcile_roles_calls in Hrun' as [_ Hn].
  intros c Hc r' Hr' Hin2.
  apply (proj1 (Forall_forall _ _) Hn c Hc) in Hr'.
  apply NoDup_app in ND as (_ & Hdisj & [Hr2 _]%NoDup_cons).
  apply elem_of_app in Hr' as [Hr'|Hr'].
  - apply (Hdisj r' Hr'). by right.
  - apply list_elem_of_singleton in Hr'. by subst r'.
Qed.

Lemma issued_range (keys : gset string) st st' :
  issued (range keys st).2 st' = issued st st'.
Proof. done. Qed.

(** C5. In Create and in Update alike, let the roles be visited in the order
    [rs1], [r], [rs2]; let the roles of [rs1] pass, and let the pass of [r]
    fail, in its fetch or in its reconciliation, with error [e0], in state
    [st2].  Then the operation returns [e0] with its context in front, the
    entity untouched, and [st2] as the final state: nothing at all is done
    after the failure.  And no call issued by the operation names a role of
    [rs2]. *)
Theorem lifecycle_fail_fast_across_roles d st rs1 r rs2 st1 st2 e0 :
  range_order (rng st) (dom rolesMap) = rs1 ++ r :: rs2 →
  passes d (group d) rs1 (range (dom rolesMap) st).2 st1 →
  role_pass d (group d) r st1 = (Some e0, st2) →
  resourceGroupMembersCreate d st
    = (Some ("Error adding members: " +:+ e0), d, st2) ∧
  resourceGroupMembersUpdate d st
    = (Some ("Error updating memberships: " +:+ e0), d, st2) ∧
  ∀ c, c ∈ issued st st2 → ∀ r', call_role c = Some r' → r' ∉ rs2.
Proof.
  intros Horder Hpasses Hfail.
  assert (ND : NoDup (rs1 ++ r :: rs2)).
  { rewrite <- Horder. apply range_NoDup. }
  unfold resourceGroupMembersCreate, resourceGroupMembersUpdate.
  unfold range in *. simpl in Hpasses. rewrite Horder.
  destruct (role_loop_fail_fast "Error adding members: " _ _ _ _ _ _ _ _ _
              ND Hpasses Hfail) as [-> Hcalls].
  destruct (role_loop_fail_fast "Error updating memberships: " _ _ _ _ _ _ _ _ _
              ND Hpasses Hfail) as [-> _].
  done.
Qed.

(** ** Read, and the read-back of Create *)

Lemma read_roles_run d roles st res d' st' :
  read_roles d roles st = (res, d', st') →
  Id d' = Id d ∧
  ∀ e, res = Some e →
       ∃ role, role ∈ roles ∧
               last (calls st') = Some (CallList (Id d) role (Some e)).
Proof.
  revert d st. induction roles as [|role roles IH]; intros d st Hrun;
    simpl in Hrun.
  - inversion Hrun; subst. done.
  - destruct (getApiMembers (Id d) role st) as [[err|roleMembers] st1] eqn:Hget.
    + inversion Hrun; subst. split; [done|]. intros e [= ->].
      apply getApiMembers_calls in Hget as (err & Hc & Herr).
      exists role. split; [left|]. rewrite Hc, last_snoc.
      by rewrite (Herr e eq_refl).
    + apply IH in Hrun as [HId Hlast]. simpl in *. split; [done|].
      intros e He. destruct (Hlast e He) as (role' & Hin & Hl).
      exists role'. split; [by right|done].
Qed.

(** C10. Let every role reconcile in Create, and let the read-back that
    follows fail with error [e].  Then Create returns [e] as it is, which is
    the error of the listing call that failed, the last call of the run; and
    the entity it leaves has the group id as its identifier. *)
Theorem resourceGroupMembersCreate_read_back_fails d st st1 e d' st2 :
  passes d (group d) (range_order (rng st) (dom rolesMap))
    (range (dom rolesMap) st).2 st1 →
  resourceGroupMembersRead (SetId d (group d)) st1 = (Some e, d', st2) →
  resourceGroupMembersCreate d st = (Some e, d', st2) ∧
  Id d' = group d ∧
  ∃ role, role ∈ dom rolesMap ∧
          last (calls st2) = Some (CallList (group d) role (Some e)).
Proof.
  intros Hpasses Hread.
  apply (passes_reconcile_roles "Error adding members: ") in Hpasses.
  unfold resourceGroupMembersCreate. unfold range in *. simpl in Hpasses.
  rewrite Hpasses. split; [done|].
  unfold resourceGroupMembersRead, range in Hread.
  destruct (read_roles _ _ _) as [[[err|] d1] stb] eqn:Hloop; [|done].
  inversion Hread; subst err d1 stb.
  apply read_roles_run in Hloop as [HId Hlast]. split; [done|].
  destruct (Hlast e eq_refl) as (role & Hin & Hl).
  exists role. split; [|done]. by apply range_elem_of in Hin.
Qed.

(** The fields of the other roles are not written by the read loop. *)
Lemma read_roles_frame d roles st res d' st' key :
  read_roles d roles st = (res, d', st') →
  key ∉ rolesMap_at <$> roles →
  sets d' !! key = sets d !! key.
Proof.
  revert d st. induction roles as [|role roles IH]; intros d st Hrun Hkey;
    simpl in Hrun.
  - by inversion Hrun.
  - destruct (getApiMembers (Id d) role st) as [[err|roleMembers] st1].
    + by inversion Hrun.
    + apply IH in Hrun; [|set_solver]. rewrite Hrun. simpl.
      apply lookup_insert_ne. set_solver.
Qed.

End Properties.

(** * Round trip against the store *)

Section Store.

Context `{!Runtime} {p : Duplicates}.

Implicit Types (st : St (Store p)) (C : gset string) (d : ResourceData).

(** What the store files for member [e] of group [g] in state [st]. *)
Local Abbreviation filed st g e := (entries (world st) !! (g, e)).

(** Listing the store: the fetch leaves the store alone and returns the
    members filed under the role. *)
Lemma store_getApiMembers gid role st :
  ∃ l,
    getApiMembers gid role st
      = (inr l, record (CallList gid role None) (world st) st) ∧
    ∀ e, e ∈ l ↔ filed st gid e = Some role.
Proof.
  eexists. split; [by apply getApiMembers_listed|].
  intros e. rewrite elem_of_listed. split.
  - intros (mem & Hin & <- & <-).
    apply list_elem_of_omap in Hin as ([[g e'] r] & Hkv & Hf).
    apply elem_of_map_to_list in Hkv. simpl in Hf.
    case_decide as Hd; [|done]. destruct Hd as [-> Hr].
    injection Hf as <-. done.
  - intros Hlook. exists {| Role := role; Email := e |}.
    split; [|done]. apply list_elem_of_omap.
    exists ((gid, e), role). split; [by apply elem_of_map_to_list|].
    simpl. by rewrite decide_True.
Qed.

Lemma store_deleteMember_ok k gid st st' :
  deleteMember k gid st = (None, st') →
  entries (world st') = delete (gid, k) (entries (world st)).
Proof.
  unfold deleteMember. cbn [Members_Delete store_directory]. unfold store_delete.
  destruct (filed st gid k); [|done]. by intros [= <-].
Qed.

Lemma store_addMember_ok k gid role st st' :
  addMember k gid role st = (None, st') →
  entries (world st') = <[(gid, k) := role]> (entries (world st)) ∧
  (p = Reject → filed st gid k = None).
Proof.
  unfold addMember. cbn [Members_Insert store_directory].
  unfold store_insert. cbn [Email Role].
  destruct (filed st gid k), p; try done; by intros [= <-].
Qed.

(** The store after the removals: the members visited that the
    configuration lacks are gone, the rest is as it was. *)
Lemma store_reconcile_remove gid ks C st C' st' :
  NoDup ks →
  reconcile_remove gid ks C st = (inr C', st') →
  ∀ g e, filed st' g e
         = if decide (g = gid ∧ e ∈ ks ∧ e ∉ C) then None else filed st g e.
Proof.
  intros ND. revert C st.
  induction ND as [|k ks Hk ND IH]; intros C st Hrun g e; simpl in Hrun.
  - inversion Hrun; subst. rewrite decide_False; [done|].
    intros (_ & Hin & _). by apply not_elem_of_nil in Hin.
  - destruct (decide (k ∈ C)) as [HkC|HkC].
    + rewrite (IH _ _ Hrun g e). apply decide_ext.
      destruct (decide (e = k)) as [->|Hne]; set_solver.
    + destruct (deleteMember k gid st) as [[err|] st1] eqn:Hdel; [done|].
      apply store_deleteMember_ok in Hdel.
      rewrite (IH _ _ Hrun g e), Hdel.
      destruct (decide ((g, e) = (gid, k))) as [[= -> ->]|Hne].
      * rewrite lookup_delete_eq.
        rewrite (decide_True (P := gid = gid ∧ k ∈ k :: ks ∧ k ∉ C))
          by set_solver.
        by case_decide.
      * rewrite lookup_delete_ne by done. apply decide_ext.
        assert (g = gid → e ≠ k) by (intros -> ->; done). set_solver.
Qed.

(** The store after the additions: the members visited are filed under the
    role; in a store that rejects duplicates none of them was in the group
    before. *)
Lemma store_reconcile_add gid role ks st st' :
  reconcile_add gid role ks st = (None, st') →
  (∀ g e, filed st' g e
          = if decide (g = gid ∧ e ∈ ks) then Some role else filed st g e) ∧
  (p = Reject → ∀ e, e ∈ ks → filed st gid e = None).
Proof.
  revert st. induction ks as [|k ks IH]; intros st Hrun; simpl in Hrun.
  - inversion Hrun; subst. split.
    + intros g e. rewrite decide_False; [done|].
      intros [_ Hin]. by apply not_elem_of_nil in Hin.
    + intros _ e Hin. by apply not_elem_of_nil in Hin.
  - destruct (addMember k gid role st) as [[err|] st1] eqn:Hadd; [done|].
    apply store_addMember_ok in Hadd as [Hw Hfree].
    apply IH in Hrun as [Hlook Hfresh]. rewrite Hw in Hlook, Hfresh. split.
    + intros g e. rewrite Hlook.
      destruct (decide ((g, e) = (gid, k))) as [[= -> ->]|Hne].
      * rewrite lookup_insert_eq.
        rewrite (decide_True (P := gid = gid ∧ k ∈ k :: ks)) by set_solver.
        by case_decide.
      * rewrite lookup_insert_ne by done. apply decide_ext.
        assert (g = gid → e ≠ k) by (intros -> ->; done). set_solver.
    + intros Hp e [->|Hin]%elem_of_cons; [by apply Hfree|].
      specialize (Hfresh Hp e Hin).
      destruct (decide (e = k)) as [->|Hne].
      * by rewrite lookup_insert_eq in Hfresh.
      * by rewrite lookup_insert_ne in Hfresh by congruence.
Qed.

(** One successful reconciliation of a role, started from what the store
    lists for the role.  Afterwards the store files exactly the configured
    members under the role.  What it files under another role, or in another
    group, is what it filed before, less the members of the group that were
    configured for this role.  In a store that rejects duplicates, no member
    configured for this role was filed under another. *)
Lemma store_reconcileMembers cfg api gid role st st' :
  (∀ e, e ∈ api ↔ filed st gid e = Some role) →
  reconcileMembers cfg api gid role st = (None, st') →
  (∀ e, filed st' gid e = Some role ↔ e ∈ cfg) ∧
  (∀ g e r, (g, r) ≠ (gid, role) →
            filed st' g e = Some r
            ↔ filed st g e = Some r ∧ ¬ (g = gid ∧ e ∈ cfg)) ∧
  (p = Reject → ∀ e r, e ∈ cfg → filed st gid e = Some r → r = role).
Proof.
  intros Hapi. unfold reconcileMembers, range. rewrite !m_list_to_set.
  assert (Hdes : ∀ e, e ∈ (list_to_set cfg : gset string) ↔ e ∈ cfg).
  { intros e. apply elem_of_list_to_set. }
  assert (Hks : ∀ e, e ∈ range_order (rng st) (list_to_set api) ↔ e ∈ api).
  { intros e. rewrite range_elem_of. apply elem_of_list_to_set. }
  assert (ND : NoDup (range_order (rng st) (list_to_set api))).
  { apply range_NoDup. }
  revert Hdes Hks ND.
  generalize (list_to_set cfg : gset string)
    (range_order (rng st) (list_to_set api)).
  intros desired ks Hdes Hks ND.
  destruct (reconcile_remove gid ks desired _) as [[err|C'] st1] eqn:Hrem;
    [done|].
  intros Hadd.
  pose proof (store_reconcile_remove _ _ _ _ _ _ ND Hrem) as Hl1.
  apply reconcile_remove_run in Hrem as [_ [-> _]]; [|done].
  apply store_reconcile_add in Hadd as [Hl2 Hfresh].
  cbn [world] in Hl1.
  assert (Hks' : ∀ e, e ∈ range_order (rng st1) (desired ∖ list_to_set ks)
                      ↔ e ∈ cfg ∧ e ∉ api).
  { intros e. rewrite range_elem_of, elem_of_difference.
    by rewrite elem_of_list_to_set, Hks, Hdes. }
  revert Hl2 Hfresh Hks'.
  generalize (range_order (rng st1) (desired ∖ list_to_set ks)).
  intros ks' Hl2 Hfresh Hks'.
  split; [|split].
  - intros e. rewrite Hl2, Hl1.
    case_decide as Hn2.
    { destruct Hn2 as [_ Hin]. apply Hks' in Hin as [Hcfg _]. done. }
    case_decide as Hn1.
    { destruct Hn1 as (_ & Hin & Hnd).
      split; [done|]. intros Hcfg. exfalso. by apply Hnd, Hdes. }
    rewrite <- Hapi. split.
    + intros Ha. destruct (decide (e ∈ cfg)) as [|Hncfg]; [done|].
      exfalso. apply Hn1. by rewrite Hks, Hdes.
    + intros Hcfg. destruct (decide (e ∈ api)) as [|Hnapi]; [done|].
      exfalso. apply Hn2. split; [done|]. by apply Hks'.
  - intros g e r Hne. rewrite Hl2, Hl1.
    case_decide as Hc2.
    { destruct Hc2 as [-> Hin]. apply Hks' in Hin as [Hcfg Hnapi].
      split; [by intros [= <-]|]. intros [_ Hno]. by destruct Hno. }
    case_decide as Hc1.
    { destruct Hc1 as (-> & Hin & _). apply Hks, Hapi in Hin.
      rewrite Hin. split; [done|]. by intros [[= <-] _]. }
    split; [|by intros [? _]]. intros Hf. split; [done|].
    intros [-> Hcfg]. apply Hc2. split; [done|]. apply Hks'. split; [done|].
    intros Hin%Hapi. rewrite Hin in Hf. by injection Hf as <-.
  - intros Hp e r Hcfg Hf.
    destruct (decide (e ∈ api)) as [Hin%Hapi|Hnapi]; [congruence|].
    assert (Hin' : e ∈ ks') by (by apply Hks').
    pose proof (Hfresh Hp e Hin') as Hnone. rewrite Hl1 in Hnone.
    rewrite decide_False in Hnone
      by (intros (_ & _ & Hnd); by apply Hnd, Hdes).
    congruence.
Qed.

Lemma resourceRoleMembers_elem_of d key e :
  e ∈ resourceRoleMembers d key ↔ e ∈ GetSet d key.
Proof.
  unfold resourceRoleMembers. rewrite Set_List_perm. apply elem_of_elements.
Qed.

Lemma store_role_pass d gid r st st' :
  role_pass d gid r st = (None, st') →
  (∀ e, filed st' gid e = Some r ↔ e ∈ GetSet d (rolesMap_at r)) ∧
  (∀ g e r', (g, r') ≠ (gid, r) →
             filed st' g e = Some r'
             ↔ filed st g e = Some r' ∧
               ¬ (g = gid ∧ e ∈ GetSet d (rolesMap_at r))) ∧
  (p = Reject → ∀ e r', e ∈ GetSet d (rolesMap_at r) →
                        filed st gid e = Some r' → r' = r).
Proof.
  unfold role_pass.
  destruct (store_getApiMembers gid r st) as (api & -> & Hapi).
  intros Hrun.
  apply store_reconcileMembers in Hrun as (Hrole & Hframe & Hrej);
    [|exact Hapi].
  split; [|split].
  - intros e. rewrite Hrole. apply resourceRoleMembers_elem_of.
  - intros g e r' Hne. rewrite (Hframe g e r' Hne).
    by rewrite resourceRoleMembers_elem_of.
  - intros Hp e r' Hin. apply (Hrej Hp). by apply resourceRoleMembers_elem_of.
Qed.

(** In a store that rejects duplicates, roles cannot pass when a member
    filed under a role outside them is asked for under one of them. *)
Lemma reject_passes_conflict d gid rs st st' e r :
  p = Reject →
  passes d gid rs st st' →
  filed st gid e = Some r → r ∉ rs →
  ∀ r', r' ∈ rs → e ∉ GetSet d (rolesMap_at r').
Proof.
  intros Hp Hpasses. revert r.
  induction Hpasses as [st|r1 rs st st1 st2 Hpass _ IH];
    intros r Hf Hr r' Hin He.
  - by apply not_elem_of_nil in Hin.
  - apply store_role_pass in Hpass as (_ & Hframe & Hrej).
    apply elem_of_cons in Hin as [->|Hin].
    + apply Hr. rewrite (Hrej Hp e r He Hf). left.
    + refine (IH r _ _ r' Hin He); [|set_solver].
      apply Hframe; [intros [= ->]; apply Hr; left|].
      split; [done|]. intros [_ He1]. apply Hr.
      rewrite (Hrej Hp e r He1 Hf). left.
Qed.

(** What passing the roles [rs] leaves of a role outside them. *)
Lemma store_passes_frame d gid rs st st' g e r :
  passes d gid rs st st' →
  (g = gid → r ∉ rs) →
  filed st' g e = Some r
  ↔ filed st g e = Some r ∧
    ¬ (g = gid ∧ ∃ r', r' ∈ rs ∧ e ∈ GetSet d (rolesMap_at r')).
Proof.
  intros Hpasses.
  induction Hpasses as [st|r1 rs st st1 st2 Hpass _ IH]; intros Hout.
  - split; [|by intros [? _]]. intros Hf. split; [done|].
    intros (_ & r' & Hin & _). by apply not_elem_of_nil in Hin.
  - apply store_role_pass in Hpass as (_ & Hframe & _).
    rewrite IH by (intros Hg Hin; apply Hout; [done|by right]).
    rewrite Hframe by (intros [= -> ->]; apply Hout; [done|left]).
    split.
    + intros [[Hf Hn1] Hn]. split; [done|].
      intros (Hg & r' & [->|Hin]%elem_of_cons & He); [by apply Hn1|].
      apply Hn. eauto.
    + intros [Hf Hn]. split; [split; [done|]|].
      * intros [Hg He]. apply Hn. split; [done|]. exists r1. split; [left|done].
      * intros (Hg & r' & Hin & He). apply Hn. split; [done|].
        exists r'. split; [by right|done].
Qed.

(** After the roles [rs] have passed, the store files under each of them
    the configured members: in a store that rejects duplicates, and in any
    store when no member is configured for two of the roles. *)
Lemma store_passes d gid rs st st' :
  NoDup rs →
  p = Reject ∨
    (∀ r1 r2, r1 ∈ rs → r2 ∈ rs → r1 ≠ r2 →
              GetSet d (rolesMap_at r1) ## GetSet d (rolesMap_at r2)) →
  passes d gid rs st st' →
  ∀ r e, r ∈ rs → filed st' gid e = Some r ↔ e ∈ GetSet d (rolesMap_at r).
Proof.
  intros ND Hcase Hpasses.
  induction Hpasses as [st|r1 rs st st1 st2 Hpass Hrest IH]; intros r e Hin.
  - by apply not_elem_of_nil in Hin.
  - apply NoDup_cons in ND as [Hr1 ND].
    apply elem_of_cons in Hin as [->|Hin].
    + apply store_role_pass in Hpass as (Hrole & _ & _).
      rewrite (store_passes_frame _ _ _ _ _ _ _ _ Hrest) by done.
      rewrite Hrole. split; [by intros [? _]|]. intros He. split; [done|].
      intros (_ & r' & Hin' & He').
      destruct Hcase as [Hp|Hdisj].
      * refine (reject_passes_conflict _ _ _ _ _ e r1 Hp Hrest _ Hr1 r' Hin' He').
        by apply Hrole.
      * apply (Hdisj r1 r' (list_elem_of_here _ _)
                 (list_elem_of_further _ _ _ Hin')
                 ltac:(by intros ->) e He He').
    + apply IH; [done| |done].
      destruct Hcase as [Hp|Hdisj]; [by left|right].
      intros ra rb Ha Hb. apply Hdisj; by right.
Qed.

(** Reading the store never fails; it writes, for each role, the members
    the store files under the role. *)
Lemma store_read_roles d roles st :
  NoDup (rolesMap_at <$> roles) →
  ∃ d' st',
    read_roles d roles st = (None, d', st') ∧
    Id d' = Id d ∧ group d' = group d ∧ world st' = world st ∧
    ∀ r e, r ∈ roles →
           e ∈ GetSet d' (rolesMap_at r) ↔ filed st (Id d) e = Some r.
Proof.
  revert d st. induction roles as [|role roles IH]; intros d st ND.
  - exists d, st. split; [done|]. split; [done|]. split; [done|].
    split; [done|]. intros r e Hin. by apply not_elem_of_nil in Hin.
  - rewrite fmap_cons in ND. apply NoDup_cons in ND as [Hrole ND].
    destruct (store_getApiMembers (Id d) role st) as (l & Hget & Hl).
    set (d1 := SetSet d (rolesMap_at role) l).
    set (st1 := record (CallList (Id d) role None) (world st) st).
    destruct (IH d1 st1 ND) as (d' & st' & Hrun & HId & Hgroup & Hw & Hsets).
    exists d', st'.
    split. { cbn [read_roles]. by rewrite Hget. }
    split; [done|]. split; [done|]. split; [done|].
    intros r e [->|Hin]%elem_of_cons.
    + unfold GetSet.
      rewrite (read_roles_frame _ _ _ _ _ _ _ Hrun Hrole). simpl.
      rewrite lookup_insert_eq. simpl. by rewrite elem_of_list_to_set.
    + by apply Hsets.
Qed.

Lemma rolesMap_fields_NoDup n :
  NoDup (rolesMap_at <$> range_order n (dom rolesMap)).
Proof.
  rewrite range_order_perm.
  apply (bool_decide_unpack _). vm_compute. exact I.
Qed.

(** C2, as the program has it. Against the store, whatever it holds at the
    start and in whatever order roles and members are visited: if the store
    rejects duplicates, or if no member is asked for under two roles, then,
    when Create succeeds, the bundle its read-back leaves in the entity has,
    for every role, the set of members that was asked for.  And for a single
    role, in either store: after a fetch and a successful reconciliation, a
    fresh fetch of the role returns the desired members, as a set. *)
Theorem store_round_trip :
  (∀ d st d' st',
     p = Reject ∨ disjoint_roles d →
     resourceGroupMembersCreate d st = (None, d', st') →
     ∀ role, role ∈ dom rolesMap →
             GetSet d' (rolesMap_at role) = GetSet d (rolesMap_at role)) ∧
  (∀ cfg gid role st api st1 st2,
     getApiMembers gid role st = (inr api, st1) →
     reconcileMembers cfg api gid role st1 = (None, st2) →
     ∃ l st3,
       getApiMembers gid role st2 = (inr l, st3) ∧
       (list_to_set l : gset string) = list_to_set cfg).
Proof.
  split.
  - intros d st d' st' Hcase.
    unfold resourceGroupMembersCreate, range.
    set (roles := range_order (rng st) (dom rolesMap)).
    destruct (reconcile_roles _ d (group d) roles _) as [[err|] st1] eqn:Hloop;
      [done|].
    apply passes_reconcile_roles in Hloop.
    assert (Hcase' : p = Reject ∨
              (∀ r1 r2, r1 ∈ roles → r2 ∈ roles → r1 ≠ r2 →
                 GetSet d (rolesMap_at r1) ## GetSet d (rolesMap_at r2))).
    { destruct Hcase as [Hp|Hdisj]; [by left|right].
      intros r1 r2 H1%range_elem_of H2%range_elem_of. by apply Hdisj. }
    pose proof (store_passes _ _ _ _ _ (range_NoDup _ _) Hcase' Hloop)
      as Hdesired.
    unfold resourceGroupMembersRead, range.
    set (roles' := range_order (rng st1) (dom rolesMap)).
    destruct (store_read_roles (SetId d (group d)) roles'
                {| world := world st1; calls := calls st1; rng := S (rng st1) |}
                (rolesMap_fields_NoDup _))
      as (d1 & stb & -> & _ & _ & _ & Hsets).
    intros [= <- <-] role Hrole. apply set_eq. intros e.
    change (GetSet (SetGroup d1 (Id d1)) (rolesMap_at role))
      with (GetSet d1 (rolesMap_at role)).
    rewrite Hsets by (by apply range_elem_of).
    simpl. apply Hdesired. by apply range_elem_of.
  - intros cfg gid role st api st1 st2 Hget Hrun.
    destruct (store_getApiMembers gid role st) as (api' & Hget' & Hapi).
    rewrite Hget in Hget'. injection Hget' as <- ->.
    apply store_reconcileMembers in Hrun as [Hrole _]; [|exact Hapi].
    destruct (store_getApiMembers gid role st2) as (l & Hget2 & Hl).
    exists l, (record (CallList gid role None) (world st2) st2).
    split; [done|]. apply set_eq. intros e.
    by rewrite !elem_of_list_to_set, Hl, Hrole.
Qed.

End Store.

(** * Further behaviour of the program *)

Section Behaviour.

Context {W : Type} `{!Directory W} `{!Runtime}.

Implicit Types (st : St W) (cs : list Call) (ks : list string).
Implicit Types (d : ResourceData).

(** ** Every run of the reconciler, failed or not *)

Lemma Forall_reconciles_del gid role ks :
  Forall (reconciles gid role) (del_ok gid <$> ks).
Proof. apply Forall_fmap, Forall_forall. by intros k _. Qed.

Lemma Forall_reconciles_ins gid role ks :
  Forall (reconciles gid role) (ins_ok gid role <$> ks).
Proof. apply Forall_fmap, Forall_forall. by intros k _. Qed.

Lemma Forall_is_delete_del gid ks : Forall is_delete (del_ok gid <$> ks).
Proof. apply Forall_fmap, Forall_forall. by intros k _. Qed.

Lemma Forall_is_insert_ins gid role ks :
  Forall is_insert (ins_ok gid role <$> ks).
Proof. apply Forall_fmap, Forall_forall. by intros k _. Qed.

Lemma removed_snoc_delete cs gid k e :
  removed (cs ++ [CallDelete gid k e]) = removed cs ++ [k].
Proof. by rewrite removed_app. Qed.

Lemma added_snoc_insert cs gid mem e :
  added (cs ++ [CallInsert gid mem e]) = added cs ++ [Email mem].
Proof. by rewrite added_app. Qed.

(** X1. In every run of the reconciler, also one that ends in an error, a
    remove call names a member of [actual − desired], an add call names a
    member of [desired − actual], every call is a remove call on the group
    or an add call on the group with the role given, and none is a listing:
    a desired member is never removed, a member already there never added. *)
Theorem reconcileMembers_calls_within cfg api gid role st res st' :
  reconcileMembers cfg api gid role st = (res, st') →
  (∀ x, x ∈ removed (issued st st') → x ∈ api ∧ x ∉ cfg) ∧
  (∀ x, x ∈ added (issued st st') → x ∈ cfg ∧ x ∉ api) ∧
  Forall (reconciles gid role) (issued st st').
Proof.
  intros Hrun.
  destruct (reconcileMembers_run _ _ _ _ _ _ _ Hrun)
    as (rems & adds & Hrems & Hadds & Hout & _).
  assert (Hr : ∀ x, x ∈ rems → x ∈ api ∧ x ∉ cfg).
  { intros x. rewrite Hrems, elem_of_elements, elem_of_difference.
    by rewrite !elem_of_list_to_set. }
  assert (Ha : ∀ x, x ∈ adds → x ∈ cfg ∧ x ∉ api).
  { intros x. rewrite Hadds, elem_of_elements, elem_of_difference.
    by rewrite !elem_of_list_to_set. }
  revert Hout. generalize (issued st st'). intros cs Hout.
  inversion Hout as [Hres Hcs|ks1 k ks2 e0 Hk Hres Hcs|ks1 k ks2 e0 Hk Hres Hcs];
    subst cs.
  - rewrite removed_app, removed_del_ok, removed_ins_ok, app_nil_r.
    rewrite added_app, added_del_ok, added_ins_ok. simpl.
    split; [done|]. split; [done|]. apply Forall_app.
    split; [apply Forall_reconciles_del|apply Forall_reconciles_ins].
  - rewrite removed_snoc_delete, removed_del_ok.
    rewrite added_app, added_del_ok. simpl. split; [|split].
    + intros x Hx. apply Hr. rewrite Hk.
      apply elem_of_app in Hx as [Hx|Hx%list_elem_of_singleton]; set_solver.
    + intros x Hx. by apply not_elem_of_nil in Hx.
    + apply Forall_app. split; [apply Forall_reconciles_del|].
      by repeat constructor.
  - rewrite !app_assoc.
    rewrite removed_app, added_snoc_insert, !removed_app, !added_app.
    rewrite removed_del_ok, removed_ins_ok, added_del_ok, added_ins_ok.
    simpl. rewrite !app_nil_r. split; [done|]. split.
    + intros x Hx. apply Ha. rewrite Hk.
      apply elem_of_app in Hx as [Hx|Hx%list_elem_of_singleton]; set_solver.
    + apply Forall_app. split; [apply Forall_app; split|].
      * apply Forall_reconciles_del.
      * apply Forall_reconciles_ins.
      * by repeat constructor.
Qed.

(** X2. In every run of the reconciler the remove calls come first and the
    add calls after them: the log of the run is a list of remove calls
    followed by a list of add calls. *)
Theorem reconcileMembers_removals_first cfg api gid role st res st' :
  reconcileMembers cfg api gid role st = (res, st') →
  ∃ cs1 cs2,
    issued st st' = cs1 ++ cs2 ∧
    Forall is_delete cs1 ∧ Forall is_insert cs2.
Proof.
  intros Hrun.
  destruct (reconcileMembers_run _ _ _ _ _ _ _ Hrun)
    as (rems & adds & _ & _ & Hout & _).
  revert Hout. generalize (issued st st'). intros cs Hout.
  inversion Hout as [Hres Hcs|ks1 k ks2 e0 Hk Hres Hcs|ks1 k ks2 e0 Hk Hres Hcs];
    subst cs.
  - eexists _, _. split; [done|].
    split; [apply Forall_is_delete_del|apply Forall_is_insert_ins].
  - exists ((del_ok gid <$> ks1) ++ [CallDelete gid k (Some e0)]), [].
    rewrite app_nil_r. split; [done|]. split; [|constructor].
    apply Forall_app. split; [apply Forall_is_delete_del|].
    by repeat constructor.
  - eexists _, _. split; [done|]. split; [apply Forall_is_delete_del|].
    apply Forall_app. split; [apply Forall_is_insert_ins|].
    by repeat constructor.
Qed.

(** X3. The reconciler returns success exactly when every call it issued
    succeeded.  When it returns an error, one call failed, the last one, and
    the error is that of the failed call behind the text of [deleteMember]
    for a remove call and of [addMember] for an add call. *)
Theorem reconcileMembers_nil_iff cfg api gid role st res st' :
  reconcileMembers cfg api gid role st = (res, st') →
  (res = None ↔ Forall call_ok (issued st st')) ∧
  (∀ err, res = Some err →
     ∃ cs0 c e,
       issued st st' = cs0 ++ [c] ∧ Forall call_ok cs0 ∧
       call_err c = Some e ∧
       (is_delete c ∧ err = "Error deleting group: " +:+ e ∨
        is_insert c ∧ err = "Error creating groupMember: " +:+ e)).
Proof.
  intros Hrun.
  destruct (reconcileMembers_run _ _ _ _ _ _ _ Hrun)
    as (rems & adds & _ & _ & Hout & _).
  revert Hout. generalize (issued st st'). intros cs Hout.
  inversion Hout as [Hres Hcs|ks1 k ks2 e0 Hk Hres Hcs|ks1 k ks2 e0 Hk Hres Hcs];
    subst cs.
  - split; [|done]. split; [|done]. intros _. apply Forall_call_ok_done.
  - split.
    + split; [done|]. intros Hok. exfalso. revert Hok.
      apply not_ok_snoc. intros Hc. inversion Hc.
    + intros err [= <-]. eexists _, _, e0. split; [done|].
      split; [apply Forall_call_ok_del|]. split; [done|]. by left.
  - split.
    + split; [done|]. intros Hok. exfalso. revert Hok.
      rewrite !app_assoc. apply not_ok_snoc. intros Hc. inversion Hc.
    + intros err [= <-]. rewrite !app_assoc. eexists _, _, e0.
      split; [done|]. split; [apply Forall_call_ok_done|].
      split; [done|]. by right.
Qed.

(** ** Read *)

Lemma getApiMembers_log gid role st res st' :
  getApiMembers gid role st = (res, st') →
  rng st' = rng st ∧
  match res with
  | inr _ => calls st' = calls st ++ [list_ok gid role]
  | inl e => calls st' = calls st ++ [CallList gid role (Some e)]
  end.
Proof.
  unfold getApiMembers.
  destruct (Members_List gid role (world st)) as [[e|l] w]; by intros [= <- <-].
Qed.

Lemma read_roles_log d roles st res d' st' :
  read_roles d roles st = (res, d', st') →
  group d' = group d ∧
  match res with
  | None => calls st' = calls st ++ (list_ok (Id d) <$> roles)
  | Some e =>
      ∃ rs1 r rs2,
        roles = rs1 ++ r :: rs2 ∧
        calls st' = calls st ++ (list_ok (Id d) <$> rs1) ++
                      [CallList (Id d) r (Some e)]
  end.
Proof.
  revert d st. induction roles as [|role roles IH]; intros d st Hrun;
    simpl in Hrun.
  - inversion Hrun; subst. split; [done|]. by rewrite app_nil_r.
  - destruct (getApiMembers (Id d) role st) as [[err|roleMembers] st1] eqn:Hget;
      apply getApiMembers_log in Hget as [_ Hc].
    + inversion Hrun; subst. split; [done|]. by exists [], role, roles.
    + apply IH in Hrun as [Hg Hlog]. split; [done|]. simpl in Hlog.
      destruct res as [e|].
      * destruct Hlog as (rs1 & r & rs2 & -> & Hc').
        exists (role :: rs1), r, rs2. split; [done|].
        rewrite Hc', Hc, <- !app_assoc. done.
      * rewrite Hlog, Hc, <- app_assoc. done.
Qed.

Lemma removed_list_ok gid rs : removed (list_ok gid <$> rs) = [].
Proof. induction rs as [|r rs IH]; [done|]. unfold removed in *. csimpl. by rewrite IH. Qed.

Lemma added_list_ok gid rs : added (list_ok gid <$> rs) = [].
Proof. induction rs as [|r rs IH]; [done|]. unfold added in *. csimpl. by rewrite IH. Qed.

(** X4. Read only lists.  It issues one listing per role on the group of
    the identifier, in the order the roles are visited, and stops at the
    first listing that fails, whose error it returns as it is; it never
    issues a remove call or an add call. *)
Theorem resourceGroupMembersRead_only_lists d st res d' st' :
  resourceGroupMembersRead d st = (res, d', st') →
  (res = None →
     issued st st' = list_ok (Id d) <$> range_order (rng st) (dom rolesMap)) ∧
  (∀ e, res = Some e →
     ∃ rs1 r rs2,
       range_order (rng st) (dom rolesMap) = rs1 ++ r :: rs2 ∧
       issued st st' = (list_ok (Id d) <$> rs1) ++
                         [CallList (Id d) r (Some e)]) ∧
  removed (issued st st') = [] ∧ added (issued st st') = [].
Proof.
  unfold resourceGroupMembersRead, range.
  destruct (read_roles d _ _) as [[res1 d1] st1] eqn:Hloop.
  apply read_roles_log in Hloop as [_ Hlog]. simpl in Hlog.
  destruct res1 as [e|]; intros [= <- <- <-].
  - destruct Hlog as (rs1 & r & rs2 & Hrs & Hc).
    rewrite (issued_app _ _ _ Hc). split; [done|]. split.
    + intros e' [= <-]. by exists rs1, r, rs2.
    + rewrite removed_app, added_app, removed_list_ok, added_list_ok. done.
  - rewrite (issued_app _ _ _ Hlog). split; [done|]. split; [done|].
    by rewrite removed_list_ok, added_list_ok.
Qed.

(** X5. Read never changes the identifier.  When it succeeds it sets the
    group attribute to the identifier; when it fails it leaves the group
    attribute as it was.  Either way an attribute that is not the field of a
    role keeps its value. *)
Theorem resourceGroupMembersRead_entity d st res d' st' :
  resourceGroupMembersRead d st = (res, d', st') →
  Id d' = Id d ∧
  (res = None → group d' = Id d) ∧
  (res ≠ None → group d' = group d) ∧
  (∀ key, key ∉ rolesMap_at <$> elements (dom rolesMap) →
          sets d' !! key = sets d !! key).
Proof.
  unfold resourceGroupMembersRead, range.
  destruct (read_roles d _ _) as [[res1 d1] st1] eqn:Hloop.
  pose proof (read_roles_run _ _ _ _ _ _ Hloop) as [HId _].
  pose proof (read_roles_log _ _ _ _ _ _ Hloop) as [Hgroup _].
  assert (Hframe : ∀ key, key ∉ rolesMap_at <$> elements (dom rolesMap) →
                          sets d1 !! key = sets d !! key).
  { intros key Hkey. apply (read_roles_frame _ _ _ _ _ _ _ Hloop).
    by rewrite range_order_perm. }
  destruct res1 as [e|]; intros [= <- <- <-]; simpl; by repeat split.
Qed.

(** ** The loop over the roles, when it fails *)

Lemma reconcile_roles_fails ctx d gid roles st err st' :
  reconcile_roles ctx d gid roles st = (Some err, st') →
  ∃ rs1 r rs2 st1 e0,
    roles = rs1 ++ r :: rs2 ∧ passes d gid rs1 st st1 ∧
    role_pass d gid r st1 = (Some e0, st') ∧ err = ctx +:+ e0.
Proof.
  revert st. induction roles as [|r roles IH]; intros st Hrun; [done|].
  destruct (role_pass d gid r st) as [[e0|] st1] eqn:Hpass.
  - rewrite (reconcile_roles_pass_fails ctx _ _ _ roles _ _ _ Hpass) in Hrun.
    injection Hrun as <- <-.
    exists [], r, roles, st, e0. split; [done|]. split; [constructor|done].
  - rewrite (reconcile_roles_cons_pass ctx _ _ _ _ _ _ Hpass) in Hrun.
    apply IH in Hrun as (rs1 & r' & rs2 & sta & e0 & -> & Hp & Hf & ->).
    exists (r :: rs1), r', rs2, sta, e0. split; [done|].
    split; [by econstructor|done].
Qed.

(** The error of a pass that fails, against the call that failed. *)
Lemma role_pass_error d gid r st e0 st' :
  role_pass d gid r st = (Some e0, st') →
  ∃ c e,
    last (calls st') = Some c ∧ call_err c = Some e ∧
    (is_list c ∧ e0 = e ∨
     is_delete c ∧ e0 = "Error deleting group: " +:+ e ∨
     is_insert c ∧ e0 = "Error creating groupMember: " +:+ e).
Proof.
  unfold role_pass.
  destruct (getApiMembers gid r st) as [[e|apiMembers] st1] eqn:Hget;
    apply getApiMembers_log in Hget as [_ Hc].
  - intros [= <- <-]. exists (CallList gid r (Some e)), e.
    rewrite Hc, last_snoc. split; [done|]. split; [done|]. by left.
  - intros Hrun.
    destruct (reconcileMembers_run _ _ _ _ _ _ _ Hrun)
      as (rems & adds & _ & _ & Hout & Hc2).
    revert Hout Hc2. generalize (issued st1 st'). intros cs Hout Hc2.
    inversion Hout as [Hres Hcs|ks1 k ks2 e Hk Hres Hcs|ks1 k ks2 e Hk Hres Hcs];
      subst cs.
    + eexists _, e. rewrite Hc2, !app_assoc, last_snoc.
      split; [done|]. split; [done|]. right. by left.
    + eexists _, e. rewrite Hc2, !app_assoc, last_snoc.
      split; [done|]. split; [done|]. right. by right.
Qed.

(** X6. An error returned by Create or by Update is made of the error of
    the call that failed, which is the last call of the run.  For a failure
    while reconciling it is the context of the operation, then the text of
    [deleteMember] or of [addMember] if the call was theirs, then the error
    of the call, and the entity is returned as it was.  For a failure of the
    read-back it is the error of the listing, bare; Create has by then set
    the identifier to the group id, Update has left it alone. *)
Theorem lifecycle_error_shape :
  (∀ d st err d' st',
     resourceGroupMembersCreate d st = (Some err, d', st') →
     ∃ c e,
       last (calls st') = Some c ∧ call_err c = Some e ∧
       let ctx := "Error adding members: " in
       (d' = d ∧
          (is_list c ∧ err = ctx +:+ e ∨
           is_delete c ∧ err = ctx +:+ ("Error deleting group: " +:+ e) ∨
           is_insert c ∧ err = ctx +:+ ("Error creating groupMember: " +:+ e)) ∨
        Id d' = group d ∧ is_list c ∧ err = e)) ∧
  (∀ d st err d' st',
     resourceGroupMembersUpdate d st = (Some err, d', st') →
     ∃ c e,
       last (calls st') = Some c ∧ call_err c = Some e ∧
       let ctx := "Error updating memberships: " in
       (d' = d ∧
          (is_list c ∧ err = ctx +:+ e ∨
           is_delete c ∧ err = ctx +:+ ("Error deleting group: " +:+ e) ∨
           is_insert c ∧ err = ctx +:+ ("Error creating groupMember: " +:+ e)) ∨
        Id d' = Id d ∧ is_list c ∧ err = e)).
Proof.
  assert (Hloop : ∀ ctx d gid roles st err st',
            reconcile_roles ctx d gid roles st = (Some err, st') →
            ∃ c e, last (calls st') = Some c ∧ call_err c = Some e ∧
              (is_list c ∧ err = ctx +:+ e ∨
               is_delete c ∧ err = ctx +:+ ("Error deleting group: " +:+ e) ∨
               is_insert c ∧
                 err = ctx +:+ ("Error creating groupMember: " +:+ e))).
  { intros ctx d gid roles st err st' Hrun.
    apply reconcile_roles_fails in Hrun
      as (rs1 & r & rs2 & st1 & e0 & _ & _ & Hfail & ->).
    apply role_pass_error in Hfail as (c & e & Hlast & Herr & Hshape).
    exists c, e. split; [done|]. split; [done|].
    destruct Hshape as [[? ->]|[[? ->]|[? ->]]]; auto. }
  assert (Hback : ∀ d st err d' st',
            resourceGroupMembersRead d st = (Some err, d', st') →
            ∃ c, last (calls st') = Some c ∧ call_err c = Some err ∧
                 is_list c ∧ Id d' = Id d).
  { intros d st err d' st'. unfold resourceGroupMembersRead, range.
    destruct (read_roles d _ _) as [[[e1|] d1] st1] eqn:Hrd; [|done].
    intros [= <- <- <-].
    apply read_roles_run in Hrd as [HId Hlast].
    destruct (Hlast e1 eq_refl) as (role & _ & Hl).
    eexists. split; [exact Hl|]. done. }
  split.
  - intros d st err d' st'. unfold resourceGroupMembersCreate.
    destruct (range (dom rolesMap) st) as [roles st0].
    destruct (reconcile_roles _ d (group d) roles st0) as [[e1|] st1] eqn:Hrun.
    + intros [= <- <- <-]. apply Hloop in Hrun as (c & e & ? & ? & ?).
      exists c, e. cbv zeta. auto.
    + intros Hread. apply Hback in Hread as (c & Hl & He & Hlist & HId).
      exists c, err. cbv zeta. split; [done|]. split; [done|]. right. done.
  - intros d st err d' st'. unfold resourceGroupMembersUpdate.
    destruct (range (dom rolesMap) st) as [roles st0].
    destruct (reconcile_roles _ d (group d) roles st0) as [[e1|] st1] eqn:Hrun.
    + intros [= <- <- <-]. apply Hloop in Hrun as (c & e & ? & ? & ?).
      exists c, e. cbv zeta. auto.
    + intros Hread. apply Hback in Hread as (c & Hl & He & Hlist & HId).
      exists c, err. cbv zeta. split; [done|]. split; [done|]. right. done.
Qed.

(** ** Which group Create and Update reconcile, and which they read back *)

Lemma Outcome_gid gid role rems adds res cs :
  Outcome gid role rems adds res cs → Forall (λ c, call_gid c = gid) cs.
Proof.
  assert (Hd : ∀ ks, Forall (λ c, call_gid c = gid) (del_ok gid <$> ks)).
  { intros ks. apply Forall_fmap, Forall_forall. by intros k _. }
  assert (Hi : ∀ ks, Forall (λ c, call_gid c = gid) (ins_ok gid role <$> ks)).
  { intros ks. apply Forall_fmap, Forall_forall. by intros k _. }
  intros Hout.
  inversion Hout as [Hres Hcs|ks1 k ks2 e0 Hk Hres Hcs|ks1 k ks2 e0 Hk Hres Hcs];
    subst cs; rewrite ?Forall_app; repeat split; try done;
    by repeat constructor.
Qed.

Lemma role_pass_gid d gid r st res st' :
  role_pass d gid r st = (res, st') →
  Forall (λ c, call_gid c = gid) (issued st st').
Proof.
  unfold role_pass.
  destruct (getApiMembers gid r st) as [[e|apiMembers] st1] eqn:Hget;
    apply getApiMembers_calls in Hget as (err & Hc1 & _).
  - intros [= <- <-]. rewrite (issued_app _ _ _ Hc1). by repeat constructor.
  - intros Hrun.
    destruct (reconcileMembers_run _ _ _ _ _ _ _ Hrun)
      as (rems & adds & _ & _ & Hout & Hc2).
    rewrite Hc1, <- app_assoc in Hc2. rewrite (issued_app _ _ _ Hc2).
    constructor; [done|]. by eapply Outcome_gid.
Qed.

Lemma passes_gid d gid rs st st' :
  passes d gid rs st st' →
  calls st' = calls st ++ issued st st' ∧
  Forall (λ c, call_gid c = gid) (issued st st').
Proof.
  induction 1 as [st|r rs st st1 st2 Hpass _ [Hc2 Hg2]].
  - rewrite (issued_app st st []) by (by rewrite app_nil_r).
    by rewrite app_nil_r.
  - pose proof (role_pass_gid _ _ _ _ _ _ Hpass) as Hg1.
    apply role_pass_calls in Hpass as [Hc1 _].
    rewrite Hc1, <- app_assoc in Hc2. rewrite (issued_app _ _ _ Hc2).
    split; [done|]. by apply Forall_app.
Qed.

Lemma read_back_log d st d' st' :
  resourceGroupMembersRead d st = (None, d', st') →
  Id d' = Id d ∧ group d' = Id d ∧
  ∃ rs, rs ≡ₚ elements (dom rolesMap) ∧
        calls st' = calls st ++ (list_ok (Id d) <$> rs).
Proof.
  unfold resourceGroupMembersRead, range.
  destruct (read_roles d _ _) as [[[e|] d1] st1] eqn:Hloop; [done|].
  intros [= <- <-].
  pose proof (read_roles_run _ _ _ _ _ _ Hloop) as [HId _].
  apply read_roles_log in Hloop as [_ Hlog]. simpl in *.
  split; [done|]. split; [done|].
  eexists. split; [apply range_order_perm|exact Hlog].
Qed.

(** X7. When Create succeeds the entity has the group id as identifier and
    as group; it has reconciled that group and read it back.  When Update
    succeeds the identifier is the one the entity came with, and the group
    attribute is set to it: Update reconciles the group of the group
    attribute, and reads back, and records, the group of the identifier. *)
Theorem lifecycle_groups :
  (∀ d st d' st',
     resourceGroupMembersCreate d st = (None, d', st') →
     Id d' = group d ∧ group d' = group d ∧
     ∃ cs0 rs,
       rs ≡ₚ elements (dom rolesMap) ∧
       issued st st' = cs0 ++ (list_ok (group d) <$> rs) ∧
       Forall (λ c, call_gid c = group d) cs0) ∧
  (∀ d st d' st',
     resourceGroupMembersUpdate d st = (None, d', st') →
     Id d' = Id d ∧ group d' = Id d ∧
     ∃ cs0 rs,
       rs ≡ₚ elements (dom rolesMap) ∧
       issued st st' = cs0 ++ (list_ok (Id d) <$> rs) ∧
       Forall (λ c, call_gid c = group d) cs0).
Proof.
  split.
  - intros d st d' st'. unfold resourceGroupMembersCreate, range.
    destruct (reconcile_roles _ d (group d) _ _) as [[e1|] st1] eqn:Hrun;
      [done|].
    apply passes_reconcile_roles, passes_gid in Hrun as [Hc1 Hg].
    intros Hread. apply read_back_log in Hread as (HId & Hgr & rs & Hrs & Hc2).
    simpl in *. split; [done|]. split; [done|].
    rewrite Hc1, <- app_assoc in Hc2.
    eexists _, rs. split; [done|]. split; [|exact Hg].
    by apply issued_app.
  - intros d st d' st'. unfold resourceGroupMembersUpdate, range.
    destruct (reconcile_roles _ d (group d) _ _) as [[e1|] st1] eqn:Hrun;
      [done|].
    apply passes_reconcile_roles, passes_gid in Hrun as [Hc1 Hg].
    intros Hread. apply read_back_log in Hread as (HId & Hgr & rs & Hrs & Hc2).
    simpl in *. split; [done|]. split; [done|].
    rewrite Hc1, <- app_assoc in Hc2.
    eexists _, rs. split; [done|]. split; [|exact Hg].
    by apply issued_app.
Qed.

(** ** The slice of [resourceRoleMembers] *)

Lemma fill_from_enough (vals members : list string) (i : nat) :
  (i + length vals ≤ length members)%nat →
  fill_from i vals members
  = Some (take i members ++ vals ++ drop (i + length vals) members).
Proof.
  revert i members. induction vals as [|v vals IH]; intros i members Hlen;
    simpl in *.
  - rewrite Nat.add_0_r. by rewrite take_drop.
  - unfold set_index. rewrite decide_True by lia.
    rewrite IH by (rewrite length_insert; lia).
    rewrite (take_S_r _ _ v) by (apply list_lookup_insert_eq; lia).
    rewrite take_insert_ge by lia. rewrite drop_insert_lt by lia.
    replace (i + S (length vals)) with (S i + length vals) by lia.
    by rewrite <- app_assoc.
Qed.

Lemma Set_List_length (s : gset string) : length (Set_List s) = size s.
Proof. by rewrite Set_List_perm. Qed.

(** X8. The slice [resourceRoleMembers] makes and fills index by index is
    the list of the set: the writes stay within the slice, every slot is
    written, and an attribute that reads as nil gives the empty slice. *)
Theorem resourceRoleMembers_filled_ok d key :
  resourceRoleMembers_filled d key = Some (resourceRoleMembers d key) ∧
  length (resourceRoleMembers d key) = size (GetSet d key) ∧
  NoDup (resourceRoleMembers d key).
Proof.
  unfold resourceRoleMembers_filled, resourceRoleMembers, GetSet.
  split; [|split].
  - destruct (sets d !! key) as [ss|]; simpl.
    + rewrite fill_from_enough
        by (rewrite length_replicate, Set_List_length; simpl; lia).
      rewrite take_0. simpl. rewrite drop_ge, app_nil_r; [done|].
      rewrite length_replicate, Set_List_length. lia.
    + f_equal. symmetry. apply Permutation_nil_r.
      by rewrite Set_List_perm, elements_empty.
  - apply Set_List_length.
  - rewrite Set_List_perm. apply NoDup_elements.
Qed.

(** X9. The helper that turns a slice into a map keeps exactly the elements
    of the slice as keys; repeated elements collapse, so the map has at most
    as many keys as the slice has entries, and as many when no entry is
    repeated. *)
Theorem m_keys (vals : list string) :
  (∀ x, x ∈ m vals ↔ x ∈ vals) ∧
  (size (m vals) ≤ length vals)%nat ∧
  (NoDup vals → size (m vals) = length vals).
Proof.
  rewrite m_list_to_set. split; [|split].
  - intros x. apply elem_of_list_to_set.
  - induction vals as [|v vals IH].
    + rewrite list_to_set_nil, size_empty. simpl. lia.
    + rewrite list_to_set_cons, size_union_alt, size_singleton. simpl.
      assert (size (list_to_set vals ∖ {[v]} : gset string)
              ≤ size (list_to_set vals : gset string))%nat.
      { apply subseteq_size. set_solver. }
      lia.
  - apply size_list_to_set.
Qed.

(** ** Equal sets *)

Lemma reconcile_remove_struck gid ks (C : gset string) st :
  NoDup ks → (∀ k, k ∈ ks → k ∈ C) →
  reconcile_remove gid ks C st = (inr (C ∖ list_to_set ks), st).
Proof.
  intros ND. revert C. induction ND as [|k ks Hk ND IH]; intros C Hin; simpl.
  - do 2 f_equal. set_solver.
  - rewrite decide_True by (apply Hin; left).
    rewrite IH.
    + do 2 f_equal. set_solver.
    + intros k' Hk'. apply elem_of_difference. split; [apply Hin; by right|].
      intros ->%elem_of_singleton. done.
Qed.

(** With the same members on both sides the reconciler makes no call and
    leaves the world alone: all it uses up is two [range] statements. *)
Lemma reconcileMembers_same_sets cfg api gid role st :
  (∀ x, x ∈ cfg ↔ x ∈ api) →
  reconcileMembers cfg api gid role st
  = (None, {| world := world st; calls := calls st; rng := S (S (rng st)) |}).
Proof.
  intros Hsame. unfold reconcileMembers, range. rewrite !m_list_to_set.
  rewrite reconcile_remove_struck.
  - assert (Hempty : (list_to_set cfg : gset string)
                       ∖ list_to_set (range_order (rng st) (list_to_set api))
                     = ∅).
    { apply set_eq. intros x.
      rewrite elem_of_difference, !elem_of_list_to_set, range_elem_of,
        elem_of_list_to_set, Hsame. set_solver. }
    rewrite Hempty. cbn [rng].
    assert (Hnil : range_order (S (rng st)) ∅ = []).
    { apply Permutation_nil_r. by rewrite range_order_perm, elements_empty. }
    by rewrite Hnil.
  - apply range_NoDup.
  - intros k. rewrite range_elem_of, !elem_of_list_to_set. apply Hsame.
Qed.

End Behaviour.

(** * Further behaviour against the store *)

Section StoreBehaviour.

Context `{!Runtime} {p : Duplicates}.

Implicit Types (st : St (Store p)) (d : ResourceData).

Local Abbreviation filed st g e := (entries (world st) !! (g, e)).

(** ** Read *)

Lemma store_read_back d st :
  ∃ d' st' rs,
    resourceGroupMembersRead d st = (None, d', st') ∧
    Id d' = Id d ∧ group d' = Id d ∧ world st' = world st ∧
    rs ≡ₚ elements (dom rolesMap) ∧
    calls st' = calls st ++ (list_ok (Id d) <$> rs) ∧
    ∀ r e, r ∈ dom rolesMap →
           e ∈ GetSet d' (rolesMap_at r) ↔ filed st (Id d) e = Some r.
Proof.
  unfold resourceGroupMembersRead, range.
  set (st0 := {| world := world st; calls := calls st; rng := S (rng st) |}).
  destruct (store_read_roles d (range_order (rng st) (dom rolesMap)) st0
              (rolesMap_fields_NoDup _))
    as (d1 & st1 & Hrun & HId & Hgroup & Hw & Hsets).
  rewrite Hrun. apply read_roles_log in Hrun as [_ Hlog].
  exists (SetGroup d1 (Id d1)), st1, (range_order (rng st) (dom rolesMap)).
  split; [done|]. split; [done|]. split; [done|]. split; [done|].
  split; [apply range_order_perm|]. split; [done|].
  intros r e Hr. apply (Hsets r e). by apply range_elem_of.
Qed.

(** X10. Reading the store always succeeds and changes nothing in it; the
    entity it returns holds, in the field of every role, exactly the members
    the store files under the role in the group of the identifier. *)
Theorem resourceGroupMembersRead_store d st res d' st' :
  resourceGroupMembersRead d st = (res, d', st') →
  res = None ∧ world st' = world st ∧
  ∀ r e, r ∈ dom rolesMap →
         e ∈ GetSet d' (rolesMap_at r) ↔ filed st (Id d) e = Some r.
Proof.
  destruct (store_read_back d st)
    as (d1 & st1 & rs & -> & _ & _ & Hw & _ & _ & Hsets).
  by intros [= <- <- <-].
Qed.

(** ** A store that has converged *)

Lemma store_pass_in_sync d gid r st :
  (∀ e, filed st gid e = Some r ↔ e ∈ GetSet d (rolesMap_at r)) →
  role_pass d gid r st
  = (None, {| world := world st; calls := calls st ++ [list_ok gid r];
              rng := S (S (rng st)) |}).
Proof.
  intros Hsync. unfold role_pass.
  destruct (store_getApiMembers gid r st) as (api & -> & Hapi).
  rewrite reconcileMembers_same_sets; [done|].
  intros e. by rewrite resourceRoleMembers_elem_of, Hapi, Hsync.
Qed.

Lemma store_loop_in_sync ctx d gid rs st :
  (∀ r e, r ∈ rs → filed st gid e = Some r ↔ e ∈ GetSet d (rolesMap_at r)) →
  ∃ st',
    reconcile_roles ctx d gid rs st = (None, st') ∧
    world st' = world st ∧
    calls st' = calls st ++ (list_ok gid <$> rs).
Proof.
  revert st. induction rs as [|r rs IH]; intros st Hsync.
  - exists st. by rewrite app_nil_r.
  - pose proof (store_pass_in_sync d gid r st
                  (λ e, Hsync r e (list_elem_of_here _ _))) as Hpass.
    rewrite (reconcile_roles_cons_pass ctx _ _ _ _ _ _ Hpass).
    destruct (IH {| world := world st; calls := calls st ++ [list_ok gid r];
                    rng := S (S (rng st)) |})
      as (st' & Hrun & Hw & Hc).
    { intros r' e Hr'. apply Hsync. by right. }
    exists st'. split; [done|]. split; [done|].
    rewrite Hc. simpl. by rewrite <- app_assoc.
Qed.

Lemma Forall_is_list_ok gid rs : Forall is_list (list_ok gid <$> rs).
Proof. apply Forall_fmap, Forall_forall. by intros r _. Qed.

(** X11. When the store already files, under every role, the members the
    entity asks for, Create and Update succeed by listing alone: they issue
    no remove call and no add call and leave the store as it is; and the
    entity Create returns asks for the same members as before. *)
Theorem lifecycle_converged d st :
  in_sync d (group d) (world st) →
  (∃ d' st',
     resourceGroupMembersCreate d st = (None, d', st') ∧
     world st' = world st ∧ Forall is_list (issued st st') ∧
     ∀ r, r ∈ dom rolesMap →
          GetSet d' (rolesMap_at r) = GetSet d (rolesMap_at r)) ∧
  (∃ d' st',
     resourceGroupMembersUpdate d st = (None, d', st') ∧
     world st' = world st ∧ Forall is_list (issued st st')).
Proof.
  intros Hsync.
  assert (Hloop : ∀ ctx, ∃ st1,
            reconcile_roles ctx d (group d)
              (range_order (rng st) (dom rolesMap))
              {| world := world st; calls := calls st; rng := S (rng st) |}
            = (None, st1) ∧
            world st1 = world st ∧
            calls st1 = calls st ++
              (list_ok (group d) <$> range_order (rng st) (dom rolesMap))).
  { intros ctx.
    destruct (store_loop_in_sync ctx d (group d)
                (range_order (rng st) (dom rolesMap))
                {| world := world st; calls := calls st; rng := S (rng st) |})
      as (st1 & Hrun & Hw & Hc).
    - intros r e Hr%range_elem_of. by apply Hsync.
    - by exists st1. }
  split.
  - destruct (Hloop "Error adding members: ") as (st1 & Hrun & Hw1 & Hc1).
    destruct (store_read_back (SetId d (group d)) st1)
      as (d' & st' & rs & Hread & _ & _ & Hw2 & _ & Hc2 & Hsets).
    exists d', st'. unfold resourceGroupMembersCreate, range.
    rewrite Hrun, Hread. split; [done|]. split; [congruence|]. split.
    + rewrite Hc1, <- app_assoc in Hc2. rewrite (issued_app _ _ _ Hc2).
      apply Forall_app. split; apply Forall_is_list_ok.
    + intros r Hr. apply set_eq. intros e.
      rewrite (Hsets r e Hr). simpl. rewrite Hw1. by apply Hsync.
  - destruct (Hloop "Error updating memberships: ")
      as (st1 & Hrun & Hw1 & Hc1).
    destruct (store_read_back d st1)
      as (d' & st' & rs & Hread & _ & _ & Hw2 & _ & Hc2 & _).
    exists d', st'. unfold resourceGroupMembersUpdate, range.
    rewrite Hrun, Hread. split; [done|]. split; [congruence|].
    rewrite Hc1, <- app_assoc in Hc2. rewrite (issued_app _ _ _ Hc2).
    apply Forall_app. split; apply Forall_is_list_ok.
Qed.

(** ** Delete *)

Lemma store_deleteMember_any k gid st :
  entries (world (deleteMember k gid st).2)
  = delete (gid, k) (entries (world st)).
Proof.
  unfold deleteMember. cbn [Members_Delete store_directory].
  unfold store_delete.
  destruct (filed st gid k) eqn:Hk; simpl; [done|].
  symmetry. by apply delete_id.
Qed.

Lemma store_delete_members gid ks st g e :
  filed (delete_members gid ks st) g e
  = if decide (g = gid ∧ e ∈ ks) then None else filed st g e.
Proof.
  revert st. induction ks as [|k ks IH]; intros st; simpl.
  - rewrite decide_False; [done|]. intros [_ Hin].
    by apply not_elem_of_nil in Hin.
  - rewrite IH, store_deleteMember_any.
    destruct (decide ((g, e) = (gid, k))) as [[= -> ->]|Hne].
    + rewrite lookup_delete_eq.
      rewrite (decide_True (P := gid = gid ∧ k ∈ k :: ks)) by set_solver.
      by case_decide.
    + rewrite lookup_delete_ne by done. apply decide_ext.
      assert (g = gid → e ≠ k) by (intros -> ->; done). set_solver.
Qed.

Lemma store_delete_roles d roles st :
  (∀ r e, r ∈ roles → e ∈ GetSet d (rolesMap_at r) →
          filed (delete_roles d roles st) (Id d) e = None) ∧
  (∀ g e, (g = Id d → ∀ r, r ∈ roles → e ∉ GetSet d (rolesMap_at r)) →
          filed (delete_roles d roles st) g e = filed st g e) ∧
  (∀ g e, filed st g e = None → filed (delete_roles d roles st) g e = None).
Proof.
  revert st. induction roles as [|role roles IH]; intros st.
  - split; [|done]. intros r e Hr. by apply not_elem_of_nil in Hr.
  - cbn [delete_roles].
    set (ks := resourceRoleMembers d (rolesMap_at role)).
    destruct (IH (delete_members (Id d) ks st)) as (Hgone & Hkept & Hnone).
    split; [|split].
    + intros r e [->|Hr]%elem_of_cons He; [|by apply (Hgone r)].
      apply Hnone. rewrite store_delete_members.
      rewrite decide_True; [done|]. split; [done|].
      by apply resourceRoleMembers_elem_of.
    + intros g e Hout. rewrite Hkept.
      * rewrite store_delete_members. rewrite decide_False; [done|].
        intros [Hg He%resourceRoleMembers_elem_of].
        by apply (Hout Hg role (list_elem_of_here _ _)).
      * intros Hg r Hr. apply (Hout Hg). by right.
    + intros g e Hn. apply Hnone. rewrite store_delete_members.
      by case_decide.
Qed.

(** X12. Delete against the store: afterwards no member recorded in the
    entity, under whatever role, is in the group of the identifier, whatever
    role the store filed it under; every other entry of the store is as it
    was. *)
Theorem resourceGroupMembersDelete_store d st res d' st' :
  resourceGroupMembersDelete d st = (res, d', st') →
  (∀ r e, r ∈ dom rolesMap → e ∈ GetSet d (rolesMap_at r) →
          filed st' (Id d) e = None) ∧
  (∀ g e, (g = Id d → ∀ r, r ∈ dom rolesMap → e ∉ GetSet d (rolesMap_at r)) →
          filed st' g e = filed st g e).
Proof.
  unfold resourceGroupMembersDelete, range. intros [= _ _ <-].
  destruct (store_delete_roles d (range_order (rng st) (dom rolesMap))
              {| world := world st; calls := calls st; rng := S (rng st) |})
    as (Hgone & Hkept & _).
  split.
  - intros r e Hr. apply Hgone. by apply range_elem_of.
  - intros g e Hout. rewrite Hkept; [done|].
    intros Hg r Hr%range_elem_of. by apply Hout.
Qed.

(** ** Create and Update, then what follows *)

Lemma store_create_sync d st d' st' :
  p = Reject ∨ disjoint_roles d →
  resourceGroupMembersCreate d st = (None, d', st') →
  in_sync d (group d) (world st') ∧
  Id d' = group d ∧ group d' = group d ∧
  ∀ r, r ∈ dom rolesMap → GetSet d' (rolesMap_at r) = GetSet d (rolesMap_at r).
Proof.
  intros Hcase. unfold resourceGroupMembersCreate, range.
  set (roles := range_order (rng st) (dom rolesMap)).
  destruct (reconcile_roles _ d (group d) roles _) as [[err|] st1] eqn:Hloop;
    [done|].
  apply passes_reconcile_roles in Hloop.
  assert (Hcase' : p = Reject ∨
            (∀ r1 r2, r1 ∈ roles → r2 ∈ roles → r1 ≠ r2 →
               GetSet d (rolesMap_at r1) ## GetSet d (rolesMap_at r2))).
  { destruct Hcase as [Hp|Hdisj]; [by left|right].
    intros r1 r2 H1%range_elem_of H2%range_elem_of. by apply Hdisj. }
  pose proof (store_passes _ _ _ _ _ (range_NoDup _ _) Hcase' Hloop) as Hdes.
  destruct (store_read_back (SetId d (group d)) st1)
    as (d1 & stb & rs & -> & HId & Hgr & Hw & _ & _ & Hsets).
  intros [= <- <-]. simpl in *. split; [|split; [done|split; [done|]]].
  - intros r e Hr. rewrite Hw. apply Hdes. by apply range_elem_of.
  - intros r Hr. apply set_eq. intros e. rewrite (Hsets r e Hr).
    apply Hdes. by apply range_elem_of.
Qed.

Lemma store_update_in_sync d st :
  in_sync d (group d) (world st) →
  ∃ d' st',
    resourceGroupMembersUpdate d st = (None, d', st') ∧
    world st' = world st ∧ Forall is_list (issued st st').
Proof.
  intros Hsync.
  destruct (store_loop_in_sync "Error updating memberships: " d (group d)
              (range_order (rng st) (dom rolesMap))
              {| world := world st; calls := calls st; rng := S (rng st) |})
    as (st1 & Hrun & Hw1 & Hc1).
  { intros r e Hr%range_elem_of. by apply Hsync. }
  destruct (store_read_back d st1)
    as (d' & st' & rs & Hread & _ & _ & Hw2 & _ & Hc2 & _).
  exists d', st'. unfold resourceGroupMembersUpdate, range.
  rewrite Hrun, Hread. split; [done|]. split; [by rewrite Hw2|].
  rewrite Hc1, <- app_assoc in Hc2. simpl in Hc2.
  rewrite (issued_app _ _ _ Hc2).
  apply Forall_app. split; apply Forall_is_list_ok.
Qed.

(** X13. Applying twice changes nothing the second time: after a Create
    that succeeded, against a store that rejects duplicates or with no
    member asked for under two roles, an Update of the entity Create
    returned succeeds, issues listings only, and leaves the store as it
    is. *)
Theorem create_then_update d st d1 st1 :
  p = Reject ∨ disjoint_roles d →
  resourceGroupMembersCreate d st = (None, d1, st1) →
  ∃ d2 st2,
    resourceGroupMembersUpdate d1 st1 = (None, d2, st2) ∧
    world st2 = world st1 ∧ Forall is_list (issued st1 st2).
Proof.
  intros Hcase Hcreate.
  apply store_create_sync in Hcreate as (Hsync & _ & Hgr & Hsets); [|done].
  apply store_update_in_sync. rewrite Hgr.
  intros r e Hr. rewrite (Hsets r Hr). by apply Hsync.
Qed.

(** X14. Create, then Delete of the entity Create returned, under the same
    proviso: afterwards the store files no member of the group under a role
    of the registry. *)
Theorem create_then_delete d st d1 st1 res d2 st2 :
  p = Reject ∨ disjoint_roles d →
  resourceGroupMembersCreate d st = (None, d1, st1) →
  resourceGroupMembersDelete d1 st1 = (res, d2, st2) →
  res = None ∧ Id d2 = "" ∧
  ∀ r e, r ∈ dom rolesMap → filed st2 (group d) e ≠ Some r.
Proof.
  intros Hcase Hcreate.
  apply store_create_sync in Hcreate as (Hsync & HId & _ & Hsets); [|done].
  unfold resourceGroupMembersDelete, range. intros [= <- <- <-].
  split; [done|]. split; [done|]. intros r e Hr Hf.
  destruct (store_delete_roles d1 (range_order (rng st1) (dom rolesMap))
              {| world := world st1; calls := calls st1; rng := S (rng st1) |})
    as (Hgone & Hkept & Hnone).
  rewrite HId in Hgone, Hkept.
  destruct (decide (e ∈ GetSet d (rolesMap_at r))) as [He|He].
  - rewrite (Hgone r e) in Hf; [done|by apply range_elem_of|].
    by rewrite Hsets.
  - destruct (filed st1 (group d) e) as [r'|] eqn:Hold.
    + destruct (decide (r' = r)) as [->|Hne].
      * apply He. by apply Hsync.
      * assert (Hstay : filed (delete_roles d1
                            (range_order (rng st1) (dom rolesMap))
                            {| world := world st1; calls := calls st1;
                               rng := S (rng st1) |}) (group d) e = None
                        ∨ filed (delete_roles d1
                            (range_order (rng st1) (dom rolesMap))
                            {| world := world st1; calls := calls st1;
                               rng := S (rng st1) |}) (group d) e = Some r').
        { destruct (decide (Exists (λ r0, e ∈ GetSet d1 (rolesMap_at r0))
                              (range_order (rng st1) (dom rolesMap))))
            as [Hex|Hnex].
          - apply Exists_exists in Hex as (r0 & Hr0 & He0). left.
            by apply (Hgone r0).
          - right. rewrite Hkept; [done|]. intros _ r0 Hr0 He0.
            apply Hnex, Exists_exists. eauto. }
        destruct Hstay as [Hs|Hs]; rewrite Hs in Hf; congruence.
    + rewrite (Hnone _ _ Hold) in Hf. done.
Qed.

(** X15. Update against the store, under the same proviso: when it succeeds
    the store files, under every role, the members asked for in the group
    of the group attribute; the entity returned holds what the store files
    in the group of the identifier; so when identifier and group attribute
    agree, the entity returned asks for the same members as before. *)
Theorem store_update_round_trip d st d' st' :
  p = Reject ∨ disjoint_roles d →
  resourceGroupMembersUpdate d st = (None, d', st') →
  in_sync d (group d) (world st') ∧
  in_sync d' (Id d) (world st') ∧
  (Id d = group d →
   ∀ r, r ∈ dom rolesMap →
        GetSet d' (rolesMap_at r) = GetSet d (rolesMap_at r)).
Proof.
  intros Hcase. unfold resourceGroupMembersUpdate, range.
  set (roles := range_order (rng st) (dom rolesMap)).
  destruct (reconcile_roles _ d (group d) roles _) as [[err|] st1] eqn:Hloop;
    [done|].
  apply passes_reconcile_roles in Hloop.
  assert (Hcase' : p = Reject ∨
            (∀ r1 r2, r1 ∈ roles → r2 ∈ roles → r1 ≠ r2 →
               GetSet d (rolesMap_at r1) ## GetSet d (rolesMap_at r2))).
  { destruct Hcase as [Hp|Hdisj]; [by left|right].
    intros r1 r2 H1%range_elem_of H2%range_elem_of. by apply Hdisj. }
  pose proof (store_passes _ _ _ _ _ (range_NoDup _ _) Hcase' Hloop) as Hdes.
  destruct (store_read_back d st1)
    as (d1 & stb & rs & -> & HId & Hgr & Hw & _ & _ & Hsets).
  intros [= <- <-].
  assert (Hs1 : in_sync d (group d) (world stb)).
  { intros r e Hr. rewrite Hw. apply Hdes. by apply range_elem_of. }
  assert (Hs2 : in_sync d1 (Id d) (world stb)).
  { intros r e Hr. rewrite Hw. symmetry. by apply Hsets. }
  split; [done|]. split; [done|].
  intros Heq r Hr. apply set_eq. intros e.
  rewrite <- (Hs2 r e Hr), Heq. by apply Hs1.
Qed.

(** ** Other groups, other roles *)

Lemma store_addMember_elsewhere k gid role st g e :
  g ≠ gid → filed (addMember k gid role st).2 g e = filed st g e.
Proof.
  intros Hg. unfold addMember. cbn [Members_Insert store_directory].
  unfold store_insert. cbn [Email Role].
  destruct (filed st gid k), p; simpl; try done;
    apply lookup_insert_ne; congruence.
Qed.

Lemma store_deleteMember_elsewhere k gid st g e :
  g ≠ gid → filed (deleteMember k gid st).2 g e = filed st g e.
Proof.
  intros Hg. rewrite store_deleteMember_any. apply lookup_delete_ne. congruence.
Qed.

Lemma store_reconcile_remove_elsewhere gid ks (C : gset string) st g e :
  g ≠ gid → filed (reconcile_remove gid ks C st).2 g e = filed st g e.
Proof.
  intros Hg. revert C st. induction ks as [|k ks IH]; intros C st; simpl;
    [done|].
  destruct (decide (k ∈ C)); [apply IH|].
  pose proof (store_deleteMember_elsewhere k gid st g e Hg) as Hd.
  destruct (deleteMember k gid st) as [[err|] st1]; simpl in *; [done|].
  by rewrite IH.
Qed.

Lemma store_reconcile_add_elsewhere gid role ks st g e :
  g ≠ gid → filed (reconcile_add gid role ks st).2 g e = filed st g e.
Proof.
  intros Hg. revert st. induction ks as [|k ks IH]; intros st; simpl; [done|].
  pose proof (store_addMember_elsewhere k gid role st g e Hg) as Ha.
  destruct (addMember k gid role st) as [[err|] st1]; simpl in *; [done|].
  by rewrite IH.
Qed.

Lemma store_role_pass_elsewhere d gid r st g e :
  g ≠ gid → filed (role_pass d gid r st).2 g e = filed st g e.
Proof.
  intros Hg. unfold role_pass.
  destruct (store_getApiMembers gid r st) as (api & -> & _).
  unfold reconcileMembers, range.
  set (st1 := {| world := world st;
                 calls := calls (record (CallList gid r None) (world st) st);
                 rng := S (rng st) |}).
  pose proof (store_reconcile_remove_elsewhere gid
                (range_order (rng st) (m api))
                (m (resourceRoleMembers d (rolesMap_at r))) st1 g e Hg) as Hr.
  cbn [rng record world calls] in *. fold st1.
  destruct (reconcile_remove gid _ _ st1) as [[err|C'] st2]; simpl in *;
    [done|].
  by rewrite store_reconcile_add_elsewhere.
Qed.

Lemma store_reconcile_roles_elsewhere ctx d gid roles st g e :
  g ≠ gid → filed (reconcile_roles ctx d gid roles st).2 g e = filed st g e.
Proof.
  intros Hg. revert st. induction roles as [|r roles IH]; intros st; [done|].
  pose proof (store_role_pass_elsewhere d gid r st g e Hg) as Hp.
  destruct (role_pass d gid r st) as [[e0|] st1] eqn:Hpass; simpl in Hp.
  - by rewrite (reconcile_roles_pass_fails ctx _ _ _ roles _ _ _ Hpass).
  - rewrite (reconcile_roles_cons_pass ctx _ _ _ _ _ _ Hpass).
    by rewrite IH.
Qed.

(** X16. Whatever happens in a run of Create, of Update or of Delete, with
    or without an error, the store's entries for every other group are
    untouched: Create and Update write only to the group of the group
    attribute, Delete only to the group of the identifier. *)
Theorem lifecycle_other_groups d st g e :
  (g ≠ group d → filed (resourceGroupMembersCreate d st).2 g e = filed st g e) ∧
  (g ≠ group d → filed (resourceGroupMembersUpdate d st).2 g e = filed st g e) ∧
  (g ≠ Id d → filed (resourceGroupMembersDelete d st).2 g e = filed st g e).
Proof.
  split; [|split]; intros Hg.
  - unfold resourceGroupMembersCreate, range.
    pose proof (store_reconcile_roles_elsewhere "Error adding members: "
                  d (group d) (range_order (rng st) (dom rolesMap))
                  {| world := world st; calls := calls st; rng := S (rng st) |}
                  g e Hg) as Hl.
    destruct (reconcile_roles _ d (group d) _ _) as [[err|] st1]; [done|].
    destruct (store_read_back (SetId d (group d)) st1)
      as (d' & st' & rs & -> & _ & _ & Hw & _). cbn [snd] in *.
    by rewrite Hw.
  - unfold resourceGroupMembersUpdate, range.
    pose proof (store_reconcile_roles_elsewhere "Error updating memberships: "
                  d (group d) (range_order (rng st) (dom rolesMap))
                  {| world := world st; calls := calls st; rng := S (rng st) |}
                  g e Hg) as Hl.
    destruct (reconcile_roles _ d (group d) _ _) as [[err|] st1]; [done|].
    destruct (store_read_back d st1)
      as (d' & st' & rs & -> & _ & _ & Hw & _). cbn [snd] in *.
    by rewrite Hw.
  - unfold resourceGroupMembersDelete, range. cbn [snd].
    destruct (store_delete_roles d (range_order (rng st) (dom rolesMap))
                {| world := world st; calls := calls st; rng := S (rng st) |})
      as (_ & Hkept & _).
    by rewrite Hkept.
Qed.

(** X17. What a successful pass for one role does to another role of the
    same group: it takes from it exactly the members configured for the
    role passed.  On a store that rejects duplicates it takes none: the
    other role has the members it had. *)
Theorem role_pass_other_roles d gid r r' st st' :
  role_pass d gid r st = (None, st') →
  r' ≠ r →
  (∀ e, filed st' gid e = Some r'
        ↔ filed st gid e = Some r' ∧ e ∉ GetSet d (rolesMap_at r)) ∧
  (p = Reject → ∀ e, filed st' gid e = Some r' ↔ filed st gid e = Some r').
Proof.
  intros Hpass Hne.
  apply store_role_pass in Hpass as (_ & Hframe & Hrej).
  assert (Hpair : (gid, r') ≠ (gid, r)) by congruence.
  split.
  - intros e. rewrite (Hframe gid e r' Hpair). naive_solver.
  - intros Hp e. rewrite (Hframe gid e r' Hpair). split; [by intros [? _]|].
    intros Hf. split; [done|]. intros [_ He]. apply Hne.
    by apply (Hrej Hp e r').
Qed.

(** ** Moving a member from one role to another *)

Lemma passes_app_inv {W} `{!Directory W} d gid rs1 rs2 (st st' : St W) :
  passes d gid (rs1 ++ rs2) st st' →
  ∃ sm, passes d gid rs1 st sm ∧ passes d gid rs2 sm st'.
Proof.
  revert st. induction rs1 as [|r rs1 IH]; intros st Hp; simpl in Hp.
  - exists st. split; [constructor|done].
  - inversion Hp as [|r0 rs0 sta stb stc Hpass Hrest]; subst.
    apply IH in Hrest as (sm & H1 & H2).
    exists sm. split; [by econstructor|done].
Qed.

(** X18. On a store that rejects duplicates, a member the store files under
    one role and the entity asks for under another can only be moved when
    the role it leaves is visited first: if Create succeeds, the old role is
    a role of the registry and comes before the new one in the order of the
    visit. *)
Theorem create_moves_member_in_order d st d' st' e r0 r :
  p = Reject →
  resourceGroupMembersCreate d st = (None, d', st') →
  filed st (group d) e = Some r0 →
  r ∈ dom rolesMap → r ≠ r0 → e ∈ GetSet d (rolesMap_at r) →
  ∃ rs1 rs2,
    range_order (rng st) (dom rolesMap) = rs1 ++ r :: rs2 ∧ r0 ∈ rs1.
Proof.
  intros Hp Hcreate Hfiled Hr Hne He.
  unfold resourceGroupMembersCreate, range in Hcreate.
  destruct (reconcile_roles _ d (group d) _ _) as [[err|] st1] eqn:Hloop;
    [done|].
  apply passes_reconcile_roles in Hloop.
  apply (range_elem_of (rng st)), list_elem_of_split in Hr
    as (rs1 & rs2 & Hsplit).
  rewrite Hsplit in Hloop. exists rs1, rs2. split; [exact Hsplit|].
  destruct (decide (r0 ∈ rs1)) as [|Hout]; [done|]. exfalso.
  change (rs1 ++ r :: rs2) with (rs1 ++ [r] ++ rs2) in Hloop.
  rewrite app_assoc in Hloop.
  apply passes_app_inv in Hloop as (sm & Hfirst & _).
  refine (reject_passes_conflict d (group d) (rs1 ++ [r]) _ sm e r0
            Hp Hfirst Hfiled _ r _ He).
  - intros [?|?%list_elem_of_singleton]%elem_of_app; congruence.
  - apply elem_of_app. right. left.
Qed.

End StoreBehaviour.

(** * Worked instances *)

(** The roles, in the order [elements_runtime] visits them. *)
Lemma sample_role_order n :
  range_order n (dom rolesMap) = ["OWNER"; "MEMBER"; "MANAGER"].
Proof. vm_compute. reflexivity. Qed.

Lemma elem_of_dom_rolesMap r :
  r ∈ dom rolesMap ↔ r = "MANAGER" ∨ r = "MEMBER" ∨ r = "OWNER".
Proof. unfold rolesMap. rewrite !dom_insert_L, dom_empty_L. set_solver. Qed.

Lemma sample_entity_disjoint : disjoint_roles sample_entity.
Proof.
  intros r1 r2 [-> | [-> | ->]]%elem_of_dom_rolesMap
    [-> | [-> | ->]]%elem_of_dom_rolesMap Hne; try done;
    unfold GetSet, rolesMap_at, rolesMap, sample_entity; cbn [sets];
    repeat (rewrite lookup_insert_eq || rewrite lookup_insert_ne by done);
    cbn [default]; set_solver.
Qed.

(** The example of the spec: desired a and b, actual b and c; one removal,
    of c, and one addition, of a. *)
Lemma reconcileMembers_minimal_witness :
  let st := mkSt (sample_store (p := Reject)) [] 0 in
  let run := reconcileMembers ["a@x"; "b@x"] ["b@x"; "c@x"] "g" "OWNER" st in
  Forall call_ok (issued st run.2) ∧
  run.1 = None ∧
  removed (issued st run.2) ≡ₚ ["c@x"] ∧
  added (issued st run.2) ≡ₚ ["a@x"].
Proof.
  intros st run.
  assert (Hok : Forall call_ok (issued st run.2)).
  { vm_compute. repeat constructor. }
  destruct (reconcileMembers_minimal _ _ _ _ st run.1 run.2
              (surjective_pairing run)) as [Hmin _].
  destruct (Hmin Hok) as (Hres & _ & Hrem & Hadd & _).
  split; [exact Hok|]. split; [exact Hres|].
  split; [vm_compute in Hrem |- *; exact Hrem|].
  vm_compute in Hadd |- *; exact Hadd.
Defined.

(** Create against a store that rejects duplicates, and against one that
    overwrites with a configuration that names no member twice. *)
Lemma store_round_trip_witness :
  let run1 := resourceGroupMembersCreate sample_entity
                (mkSt (sample_store (p := Reject)) [] 0) in
  let run2 := resourceGroupMembersCreate sample_entity
                (mkSt (sample_store (p := Overwrite)) [] 0) in
  (run1.1.1 = None ∧
   ∀ role, role ∈ dom rolesMap →
           GetSet run1.1.2 (rolesMap_at role)
           = GetSet sample_entity (rolesMap_at role)) ∧
  (disjoint_roles sample_entity ∧ run2.1.1 = None ∧
   ∀ role, role ∈ dom rolesMap →
           GetSet run2.1.2 (rolesMap_at role)
           = GetSet sample_entity (rolesMap_at role)).
Proof.
  intros run1 run2.
  assert (E1 : run1 = (None, run1.1.2, run1.2)) by (vm_compute; reflexivity).
  assert (E2 : run2 = (None, run2.1.2, run2.2)) by (vm_compute; reflexivity).
  split.
  - split; [by rewrite E1|].
    exact (proj1 (store_round_trip (p := Reject)) _ _ _ _
             (or_introl eq_refl) E1).
  - split; [exact sample_entity_disjoint|]. split; [by rewrite E2|].
    exact (proj1 (store_round_trip (p := Overwrite)) _ _ _ _
             (or_intror sample_entity_disjoint) E2).
Defined.

(** The round trip as the spec states it, at a store that files the member under the new
    role: a is asked for as an owner and as a member; Create succeeds; the
    read-back finds no owner. *)
Lemma store_round_trip_counterexample :
  let run := resourceGroupMembersCreate twice_entity
               (mkSt (mkStore (p := Overwrite) ∅) [] 0) in
  run.1.1 = None ∧
  "OWNER" ∈ dom rolesMap ∧
  GetSet twice_entity (rolesMap_at "OWNER") = {["a@x"]} ∧
  GetSet run.1.2 (rolesMap_at "OWNER") = ∅ ∧
  GetSet run.1.2 (rolesMap_at "OWNER")
    ≠ GetSet twice_entity (rolesMap_at "OWNER").
Proof.
  intros run.
  split; [vm_compute; reflexivity|].
  split; [apply elem_of_dom_rolesMap; auto|].
  split; [vm_compute; reflexivity|].
  split; [vm_compute; reflexivity|].
  vm_compute. discriminate.
Qed.

(** The first removal fails: nothing else is called. *)
Lemma reconcileMembers_remove_fails_witness :
  let st := mkSt (sample_store (p := Reject), [Some "boom"]) [] 0 in
  let run := reconcileMembers ["a@x"] ["b@x"; "c@x"] "g" "OWNER" st in
  CallDelete "g" "c@x" (Some "boom") ∈ issued st run.2 ∧
  run.1 = Some "Error deleting group: boom" ∧
  added (issued st run.2) = [] ∧
  length (issued st run.2) = 1.
Proof.
  intros st run.
  assert (Hin : CallDelete "g" "c@x" (Some "boom") ∈ issued st run.2).
  { vm_compute. left. }
  destruct (reconcileMembers_remove_fails _ _ _ _ st run.1 run.2 _ _ _
              (surjective_pairing run) Hin)
    as (_ & Hres & Hadd & ks1 & ks2 & _ & Hcs & _).
  split; [exact Hin|]. split; [exact Hres|]. split; [exact Hadd|].
  vm_compute. reflexivity.
Defined.

(** The removal goes through and the first addition fails. *)
Lemma reconcileMembers_add_fails_witness :
  let st := mkSt (sample_store (p := Reject), [None; Some "denied"]) [] 0 in
  let run := reconcileMembers ["a@x"; "b@x"; "z@x"] ["b@x"; "c@x"]
               "g" "OWNER" st in
  CallInsert "g" {| Role := "OWNER"; Email := "a@x" |} (Some "denied")
    ∈ issued st run.2 ∧
  run.1 = Some "Error creating groupMember: denied" ∧
  removed (issued st run.2) ≡ₚ ["c@x"].
Proof.
  intros st run.
  assert (Hin : CallInsert "g" {| Role := "OWNER"; Email := "a@x" |}
                  (Some "denied") ∈ issued st run.2).
  { vm_compute. right. left. }
  destruct (reconcileMembers_add_fails _ _ _ _ st run.1 run.2 _ _ _
              (surjective_pairing run) Hin)
    as (_ & _ & Hres & Hrem & _).
  split; [exact Hin|]. split; [exact Hres|].
  vm_compute in Hrem |- *. exact Hrem.
Defined.

(** Create and Update when the second role, MEMBER, cannot be fetched: the
    third role, MANAGER, is never touched. *)
Lemma lifecycle_fail_fast_across_roles_witness :
  let script := [None; None; None; Some "unavailable"] in
  let st := mkSt (sample_store (p := Reject), script) [] 0 in
  let st1 := (role_pass sample_entity "g" "OWNER" (range (dom rolesMap) st).2).2 in
  let st2 := (role_pass sample_entity "g" "MEMBER" st1).2 in
  resourceGroupMembersCreate sample_entity st
    = (Some "Error adding members: unavailable", sample_entity, st2) ∧
  resourceGroupMembersUpdate sample_entity st
    = (Some "Error updating memberships: unavailable", sample_entity, st2) ∧
  ∀ c, c ∈ issued st st2 → call_role c ≠ Some "MANAGER".
Proof.
  intros script st st1 st2.
  assert (Horder : range_order (rng st) (dom rolesMap)
                   = ["OWNER"] ++ "MEMBER" :: ["MANAGER"]).
  { apply sample_role_order. }
  assert (Hpasses : passes sample_entity (group sample_entity) ["OWNER"]
                      (range (dom rolesMap) st).2 st1).
  { eapply passes_cons; [|apply passes_nil]. vm_compute. reflexivity. }
  assert (Hfail : role_pass sample_entity (group sample_entity) "MEMBER" st1
                  = (Some "unavailable", st2)).
  { vm_compute. reflexivity. }
  destruct (lifecycle_fail_fast_across_roles sample_entity st
              ["OWNER"] "MEMBER" ["MANAGER"] st1 st2 "unavailable"
              Horder Hpasses Hfail) as (Hcreate & Hupdate & Hcalls).
  split; [exact Hcreate|]. split; [exact Hupdate|].
  intros c Hc Hrole. apply (Hcalls c Hc "MANAGER" Hrole). left.
Defined.

(** Deleting through a transport that fails every call: every member on
    record is tried once, and the result is success all the same. *)
Example resourceGroupMembersDelete_swallows_errors :
  let script := [Some "e1"; Some "e2"; Some "e3"] in
  let st := mkSt (sample_store (p := Reject), script) [] 0 in
  let run := resourceGroupMembersDelete (SetId sample_entity "g") st in
  run.1.1 = None ∧ Id run.1.2 = "" ∧
  issued st run.2
    = [CallDelete "g" "a@x" (Some "e1"); CallDelete "g" "b@x" (Some "e2");
       CallDelete "g" "d@x" (Some "e3")].
Proof. vm_compute. done. Qed.

(** An insert that fails with the error "boom". *)
Lemma addMember_error_message_witness :
  let st := mkSt (sample_store (p := Reject), [Some "boom"]) [] 0 in
  (addMember "a@x" "g" "OWNER" st).1
    = Some "Error creating groupMember: boom".
Proof.
  intros st.
  assert (Hins : Members_Insert "g" {| Role := "OWNER"; Email := "a@x" |}
                   (world st) = (inl "boom", (sample_store, []))).
  { vm_compute. reflexivity. }
  rewrite (addMember_error_message "a@x" "g" "OWNER" st "boom" _ Hins).
  reflexivity.
Defined.

(** The error context as the spec states it, at an insert that fails with "boom":
    the message of the error [addMember] returns holds neither the member id
    nor the role. *)
Lemma addMember_error_context_counterexample :
  let st := mkSt (sample_store (p := Reject), [Some "boom"]) [] 0 in
  let msg := "Error creating groupMember: boom" in
  (Members_Insert "g" {| Role := "OWNER"; Email := "a@x" |} (world st)).1
    = inl "boom" ∧
  (addMember "a@x" "g" "OWNER" st).1 = Some msg ∧
  embeds "a@x" msg = false ∧
  embeds "OWNER" msg = false ∧
  embeds "boom" msg = true.
Proof. vm_compute. done. Qed.

(** A listing that returns records of two roles, and a listing that
    fails. *)
Lemma getApiMembers_filters_by_role_witness :
  let records := [ {| Role := "OWNER"; Email := "a@x" |};
                   {| Role := "MEMBER"; Email := "b@x" |};
                   {| Role := "OWNER"; Email := "c@x" |} ] in
  (getApiMembers "g" "OWNER" (mkSt records [] 0)).1 = inr ["a@x"; "c@x"] ∧
  (getApiMembers "g" "OWNER"
     (mkSt (sample_store (p := Reject), [Some "unavailable"]) [] 0)).1
    = inl "unavailable".
Proof.
  intros records. split.
  - destruct (getApiMembers_filters_by_role "g" "OWNER" (mkSt records [] 0))
      as [Hok _].
    destruct (Hok records records eq_refl) as [-> _]. reflexivity.
  - destruct (getApiMembers_filters_by_role "g" "OWNER"
                (mkSt (sample_store (p := Reject), [Some "unavailable"]) [] 0))
      as [_ Herr].
    rewrite (Herr "unavailable" (sample_store, [])); [reflexivity|].
    vm_compute. reflexivity.
Defined.

(** The same sets, written with repetitions and in another order. *)
Lemma reconcileMembers_set_semantic_witness :
  let st := mkSt (sample_store (p := Reject)) [] 0 in
  reconcileMembers ["a@x"; "b@x"; "a@x"] ["c@x"; "b@x"; "c@x"] "g" "OWNER" st
  = reconcileMembers ["b@x"; "a@x"] ["b@x"; "c@x"] "g" "OWNER" st ∧
  removed (issued st
    (reconcileMembers ["a@x"; "b@x"; "a@x"] ["c@x"; "b@x"; "c@x"]
       "g" "OWNER" st).2) = ["c@x"].
Proof.
  intros st.
  destruct (reconcileMembers_set_semantic
              ["a@x"; "b@x"; "a@x"] ["b@x"; "a@x"]
              ["c@x"; "b@x"; "c@x"] ["b@x"; "c@x"] "g" "OWNER" st)
    as (Heq & _ & _).
  - intros x. set_solver.
  - intros x. set_solver.
  - split; [exact Heq|]. vm_compute. reflexivity.
Defined.

(** Create when all roles reconcile and the first listing of the read-back
    fails. *)
Lemma resourceGroupMembersCreate_read_back_fails_witness :
  let script := replicate 6 None ++ [Some "unavailable"] in
  let st := mkSt (sample_store (p := Reject), script) [] 0 in
  let run := resourceGroupMembersCreate sample_entity st in
  run.1.1 = Some "unavailable" ∧ Id run.1.2 = "g" ∧
  last (calls run.2) = Some (CallList "g" "OWNER" (Some "unavailable")).
Proof.
  intros script st run.
  set (st1 := (reconcile_roles "" sample_entity "g"
                 (range_order (rng st) (dom rolesMap))
                 (range (dom rolesMap) st).2).2).
  set (back := resourceGroupMembersRead (SetId sample_entity "g") st1).
  assert (Hpasses : passes sample_entity (group sample_entity)
                      (range_order (rng st) (dom rolesMap))
                      (range (dom rolesMap) st).2 st1).
  { apply (passes_reconcile_roles ""). vm_compute. reflexivity. }
  assert (Hread : resourceGroupMembersRead
                    (SetId sample_entity (group sample_entity)) st1
                  = (Some "unavailable", back.1.2, back.2)).
  { vm_compute. reflexivity. }
  destruct (resourceGroupMembersCreate_read_back_fails sample_entity st st1
              "unavailable" back.1.2 back.2 Hpasses Hread)
    as (Hrun & HId & role & _ & Hlast).
  fold run in Hrun. rewrite Hrun. split; [reflexivity|]. split; [exact HId|].
  vm_compute. reflexivity.
Defined.

(** ** Instances of the further behaviour *)

Lemma triple_eta {A B C : Type} (x : A * B * C) : x = (x.1.1, x.1.2, x.2).
Proof. by destruct x as [[? ?] ?]. Qed.

(** A run in which the removal goes through and the first addition fails. *)
Lemma reconcileMembers_calls_within_witness :
  let st := mkSt (sample_store (p := Reject), [None; Some "denied"]) [] 0 in
  let cfg := ["a@x"; "b@x"; "z@x"] in
  let api := ["b@x"; "c@x"] in
  let run := reconcileMembers cfg api "g" "OWNER" st in
  removed (issued st run.2) = ["c@x"] ∧ added (issued st run.2) = ["a@x"] ∧
  (∀ x, x ∈ removed (issued st run.2) → x ∈ api ∧ x ∉ cfg) ∧
  (∀ x, x ∈ added (issued st run.2) → x ∈ cfg ∧ x ∉ api) ∧
  Forall (reconciles "g" "OWNER") (issued st run.2).
Proof.
  intros st cfg api run.
  split; [vm_compute; reflexivity|]. split; [vm_compute; reflexivity|].
  exact (reconcileMembers_calls_within cfg api "g" "OWNER" st run.1 run.2
           (surjective_pairing run)).
Defined.

Lemma reconcileMembers_removals_first_witness :
  let st := mkSt (sample_store (p := Reject)) [] 0 in
  let run := reconcileMembers ["a@x"; "b@x"] ["b@x"; "c@x"] "g" "OWNER" st in
  ∃ cs1 cs2,
    issued st run.2 = cs1 ++ cs2 ∧
    Forall is_delete cs1 ∧ Forall is_insert cs2.
Proof.
  intros st run.
  exact (reconcileMembers_removals_first _ _ _ _ st run.1 run.2
           (surjective_pairing run)).
Defined.

(** A run that fails in its first removal. *)
Lemma reconcileMembers_nil_iff_witness :
  let st := mkSt (sample_store (p := Reject), [Some "boom"]) [] 0 in
  let run := reconcileMembers ["a@x"] ["b@x"; "c@x"] "g" "OWNER" st in
  run.1 = Some "Error deleting group: boom" ∧
  ¬ Forall call_ok (issued st run.2).
Proof.
  intros st run.
  destruct (reconcileMembers_nil_iff _ _ _ _ st run.1 run.2
              (surjective_pairing run)) as [Hiff _].
  split; [vm_compute; reflexivity|].
  intros Hok. apply Hiff in Hok. vm_compute in Hok. discriminate.
Defined.

(** A read whose second listing fails. *)
Lemma resourceGroupMembersRead_only_lists_witness :
  let st := mkSt (sample_store (p := Reject), [None; Some "unavailable"]) [] 0 in
  let run := resourceGroupMembersRead created_entity st in
  run.1.1 = Some "unavailable" ∧
  ∃ rs1 r rs2,
    range_order (rng st) (dom rolesMap) = rs1 ++ r :: rs2 ∧
    issued st run.2 = (list_ok "g" <$> rs1) ++
                        [CallList "g" r (Some "unavailable")].
Proof.
  intros st run.
  assert (Hres : run.1.1 = Some "unavailable") by (vm_compute; reflexivity).
  split; [exact Hres|].
  destruct (resourceGroupMembersRead_only_lists created_entity st
              run.1.1 run.1.2 run.2 (triple_eta run)) as (_ & Hfail & _).
  exact (Hfail "unavailable" Hres).
Defined.

Lemma resourceGroupMembersRead_entity_witness :
  let st := mkSt (sample_store (p := Reject)) [] 0 in
  let run := resourceGroupMembersRead regrouped_entity st in
  run.1.1 = None ∧ Id run.1.2 = "old" ∧ group run.1.2 = "old".
Proof.
  intros st run.
  assert (Hres : run.1.1 = None) by (vm_compute; reflexivity).
  destruct (resourceGroupMembersRead_entity regrouped_entity st
              run.1.1 run.1.2 run.2 (triple_eta run)) as (HId & Hok & _).
  split; [exact Hres|]. split; [exact HId|]. exact (Hok Hres).
Defined.

(** Create failing in a removal; Update failing in its read-back. *)
Lemma lifecycle_error_shape_witness :
  let st1 := mkSt (sample_store (p := Reject), [None; Some "boom"]) [] 0 in
  let st2 := mkSt (sample_store (p := Reject),
                   replicate 6 None ++ [Some "unavailable"]) [] 0 in
  let run1 := resourceGroupMembersCreate sample_entity st1 in
  let run2 := resourceGroupMembersUpdate created_entity st2 in
  run1.1.1 = Some "Error adding members: Error deleting group: boom" ∧
  run2.1.1 = Some "unavailable" ∧
  (∃ c e, last (calls run1.2) = Some c ∧ call_err c = Some e) ∧
  (∃ c e, last (calls run2.2) = Some c ∧ call_err c = Some e).
Proof.
  intros st1 st2 run1 run2.
  assert (E1 : run1 = (Some "Error adding members: Error deleting group: boom",
                       run1.1.2, run1.2)) by (vm_compute; reflexivity).
  assert (E2 : run2 = (Some "unavailable", run2.1.2, run2.2))
    by (vm_compute; reflexivity).
  destruct (lifecycle_error_shape (W := Store Reject * list (option error)))
    as [Hcreate Hupdate].
  destruct (Hcreate _ _ _ _ _ E1) as (c1 & e1 & Hl1 & He1 & _).
  destruct (Hupdate _ _ _ _ _ E2) as (c2 & e2 & Hl2 & He2 & _).
  split; [rewrite E1; reflexivity|]. split; [rewrite E2; reflexivity|].
  split.
  - exists c1, e1. split; [exact Hl1|exact He1].
  - exists c2, e2. split; [exact Hl2|exact He2].
Defined.

(** Create of a fresh entity; Update of an entity whose group attribute is
    not its identifier. *)
Lemma lifecycle_groups_witness :
  let st := mkSt (sample_store (p := Reject)) [] 0 in
  let run1 := resourceGroupMembersCreate sample_entity st in
  let run2 := resourceGroupMembersUpdate regrouped_entity st in
  (Id run1.1.2 = "g" ∧ group run1.1.2 = "g") ∧
  (Id run2.1.2 = "old" ∧ group run2.1.2 = "old").
Proof.
  intros st run1 run2.
  assert (E1 : run1 = (None, run1.1.2, run1.2)) by (vm_compute; reflexivity).
  assert (E2 : run2 = (None, run2.1.2, run2.2)) by (vm_compute; reflexivity).
  destruct (lifecycle_groups (W := Store Reject)) as [Hcreate Hupdate].
  destruct (Hcreate _ _ _ _ E1) as (H1 & H2 & _).
  destruct (Hupdate _ _ _ _ E2) as (H3 & H4 & _).
  split; (split; [assumption|]); assumption.
Defined.

Lemma m_keys_witness :
  size (m ["a@x"; "b@x"; "a@x"]) = 2 ∧ size (m ["a@x"; "b@x"]) = 2.
Proof.
  split; [vm_compute; reflexivity|].
  destruct (m_keys ["a@x"; "b@x"]) as (_ & _ & Hsize).
  apply Hsize. repeat constructor; set_solver.
Defined.

(** Reading group ["g"] of the sample store. *)
Lemma resourceGroupMembersRead_store_witness :
  let st := mkSt (sample_store (p := Reject)) [] 0 in
  let run := resourceGroupMembersRead created_entity st in
  run.1.1 = None ∧ world run.2 = world st ∧
  ("b@x" ∈ GetSet run.1.2 (rolesMap_at "OWNER")
   ↔ entries (world st) !! ("g", "b@x") = Some "OWNER").
Proof.
  intros st run.
  destruct (resourceGroupMembersRead_store created_entity st
              run.1.1 run.1.2 run.2 (triple_eta run)) as (Hres & Hw & Hsets).
  split; [exact Hres|]. split; [exact Hw|].
  apply (Hsets "OWNER" "b@x"). apply elem_of_dom_rolesMap. auto.
Defined.

(** The store as a Create of the sample entity leaves it, and an Update of
    the same entity on it. *)
Lemma lifecycle_converged_witness :
  let st0 := mkSt (sample_store (p := Reject)) [] 0 in
  let st1 := (resourceGroupMembersCreate sample_entity st0).2 in
  in_sync sample_entity "g" (world st1) ∧
  ∃ d' st',
    resourceGroupMembersUpdate sample_entity st1 = (None, d', st') ∧
    world st' = world st1 ∧ Forall is_list (issued st1 st').
Proof.
  intros st0 st1.
  set (run := resourceGroupMembersCreate sample_entity st0).
  assert (E : run = (None, run.1.2, st1)) by (vm_compute; reflexivity).
  destruct (store_create_sync sample_entity st0 run.1.2 st1
              (or_introl eq_refl) E) as [Hsync _].
  split; [exact Hsync|].
  exact (proj2 (lifecycle_converged sample_entity st1 Hsync)).
Defined.

(** Deleting the sample entity from the sample store: b was recorded and
    goes, c was not and stays. *)
Lemma resourceGroupMembersDelete_store_witness :
  let st := mkSt (sample_store (p := Reject)) [] 0 in
  let run := resourceGroupMembersDelete created_entity st in
  entries (world run.2) !! ("g", "b@x") = None ∧
  entries (world run.2) !! ("g", "c@x") = Some "OWNER".
Proof.
  intros st run.
  destruct (resourceGroupMembersDelete_store created_entity st
              run.1.1 run.1.2 run.2 (triple_eta run)) as [Hgone Hkept].
  split.
  - apply (Hgone "OWNER" "b@x").
    + apply elem_of_dom_rolesMap. auto.
    + apply (bool_decide_unpack _). vm_compute. exact I.
  - rewrite (Hkept "g" "c@x"); [vm_compute; reflexivity|].
    intros _ r [-> | [-> | ->]]%elem_of_dom_rolesMap;
      apply (bool_decide_unpack _); vm_compute; exact I.
Defined.

Lemma create_then_update_witness :
  let st0 := mkSt (sample_store (p := Reject)) [] 0 in
  let run := resourceGroupMembersCreate sample_entity st0 in
  run.1.1 = None ∧
  ∃ d2 st2,
    resourceGroupMembersUpdate run.1.2 run.2 = (None, d2, st2) ∧
    world st2 = world run.2 ∧ Forall is_list (issued run.2 st2).
Proof.
  intros st0 run.
  assert (E : run = (None, run.1.2, run.2)) by (vm_compute; reflexivity).
  split; [rewrite E; reflexivity|].
  exact (create_then_update sample_entity st0 run.1.2 run.2
           (or_introl eq_refl) E).
Defined.

Lemma create_then_delete_witness :
  let st0 := mkSt (sample_store (p := Overwrite)) [] 0 in
  let run := resourceGroupMembersCreate sample_entity st0 in
  let gone := resourceGroupMembersDelete run.1.2 run.2 in
  run.1.1 = None ∧ gone.1.1 = None ∧ Id gone.1.2 = "" ∧
  ∀ r e, r ∈ dom rolesMap → entries (world gone.2) !! ("g", e) ≠ Some r.
Proof.
  intros st0 run gone.
  assert (E : run = (None, run.1.2, run.2)) by (vm_compute; reflexivity).
  split; [rewrite E; reflexivity|].
  exact (create_then_delete sample_entity st0 run.1.2 run.2
           gone.1.1 gone.1.2 gone.2
           (or_intror sample_entity_disjoint) E (triple_eta gone)).
Defined.

Lemma store_update_round_trip_witness :
  let st0 := mkSt (sample_store (p := Reject)) [] 0 in
  let run := resourceGroupMembersUpdate created_entity st0 in
  run.1.1 = None ∧
  ∀ r, r ∈ dom rolesMap →
       GetSet run.1.2 (rolesMap_at r) = GetSet created_entity (rolesMap_at r).
Proof.
  intros st0 run.
  assert (E : run = (None, run.1.2, run.2)) by (vm_compute; reflexivity).
  split; [rewrite E; reflexivity|].
  destruct (store_update_round_trip created_entity st0 run.1.2 run.2
              (or_introl eq_refl) E) as (_ & _ & Hsame).
  exact (Hsame eq_refl).
Defined.

(** Group ["h"] while group ["g"] is created, updated and deleted. *)
Lemma lifecycle_other_groups_witness :
  let st := mkSt (two_groups_store (p := Reject)) [] 0 in
  entries (world (resourceGroupMembersCreate demoted_entity st).2)
    !! ("h", "z@x") = Some "MEMBER" ∧
  entries (world (resourceGroupMembersUpdate demoted_entity st).2)
    !! ("h", "z@x") = Some "MEMBER" ∧
  entries (world (resourceGroupMembersDelete (SetId demoted_entity "g") st).2)
    !! ("h", "z@x") = Some "MEMBER".
Proof.
  intros st.
  destruct (lifecycle_other_groups demoted_entity st "h" "z@x")
    as (Hcreate & Hupdate & _).
  destruct (lifecycle_other_groups (SetId demoted_entity "g") st "h" "z@x")
    as (_ & _ & Hdelete).
  rewrite Hcreate, Hupdate, Hdelete by discriminate.
  vm_compute. repeat split; reflexivity.
Defined.

(** The pass for OWNER on the sample store, seen from MEMBER. *)
Lemma role_pass_other_roles_witness :
  let st := mkSt (sample_store (p := Reject)) [] 0 in
  let run := role_pass sample_entity "g" "OWNER" st in
  run.1 = None ∧
  ∀ e, entries (world run.2) !! ("g", e) = Some "MEMBER"
       ↔ entries (world st) !! ("g", e) = Some "MEMBER".
Proof.
  intros st run.
  assert (E : run = (None, run.2)) by (vm_compute; reflexivity).
  split; [rewrite E; reflexivity|].
  destruct (role_pass_other_roles sample_entity "g" "OWNER" "MEMBER" st run.2 E)
    as [_ Hreject]; [discriminate|].
  exact (Hreject eq_refl).
Defined.

(** Member a is an owner and is asked for as a member: OWNER is visited
    before MEMBER, and Create succeeds. *)
Lemma create_moves_member_in_order_witness :
  let st := mkSt (two_groups_store (p := Reject)) [] 0 in
  let run := resourceGroupMembersCreate demoted_entity st in
  run.1.1 = None ∧
  ∃ rs1 rs2,
    range_order (rng st) (dom rolesMap) = rs1 ++ "MEMBER" :: rs2 ∧
    "OWNER" ∈ rs1.
Proof.
  intros st run.
  assert (E : run = (None, run.1.2, run.2)) by (vm_compute; reflexivity).
  split; [rewrite E; reflexivity|].
  apply (create_moves_member_in_order demoted_entity st run.1.2 run.2
           "a@x" "OWNER" "MEMBER" eq_refl E).
  - vm_compute. reflexivity.
  - apply elem_of_dom_rolesMap. auto.
  - discriminate.
  - apply (bool_decide_unpack _). vm_compute. exact I.
Defined.

(** The other way round, a member asked for as an owner: OWNER is visited
    first, the store refuses the addition, and Create fails. *)
Example create_cannot_promote_member :
  let σ : Store Reject := mkStore (<[("g", "a@x") := "MEMBER"]> ∅) in
  (resourceGroupMembersCreate twice_entity (mkSt σ [] 0)).1.1
  = Some "Error adding members: Error creating groupMember: Member already exists.".
Proof. vm_compute. reflexivity. Qed.
